(** * Gear-Simulation: the inverse design solver and the step simulator

    A shallow embedding of [services/gearMath.ts] ([calculateLewisFactor],
    [calculateGearDesign], [simulateStep]) together with the records of
    [types.ts], and the properties of the design document proved about it.

    ** Number model

    The program computes on JavaScript numbers.  A [number] is one of the
    IEEE special values ([NaN], the two infinities, the negative zero) or a
    finite value.  Finite values are carried as real numbers and finite
    arithmetic is exact: rounding to the nearest double, overflow and
    underflow are idealised away, while every rule of ECMAScript for the
    special values (division by zero, [NaN] propagation, the sign of a
    zero, [Math.pow] of a negative base) is kept as the language defines it.
    [Fin 0] is the positive zero.

    ** Randomness

    [Math.random] is the only effect of the program.  The generator of the
    runtime is a [RandomSource], the sequence of its draws with a count of
    those consumed, and [simulateStep] threads it: the source advances by
    one in the ['noise'] mode and is returned unchanged otherwise. *)

From Stdlib Require Import Reals Lra Lia ZArith List Bool.
From Stdlib Require String Ascii.
Import ListNotations.

Local Open Scope R_scope.

(* ================================================================== *)
(** ** JavaScript numbers *)
(* ================================================================== *)

Inductive number : Type :=
  | NaN : number
  | Infinity (negative : bool) : number
  | NegZero : number
  | Fin (r : R) : number.

Module Number.

(** The sign bit; [true] is "negative". *)
Definition signbit (x : number) : bool :=
  match x with
  | NaN => false
  | Infinity s => s
  | NegZero => true
  | Fin r => if Rlt_dec r 0 then true else false
  end.

Definition is_zero (x : number) : bool :=
  match x with
  | NegZero => true
  | Fin r => if Req_dec_T r 0 then true else false
  | _ => false
  end.

Definition is_finite (x : number) : bool :=
  match x with
  | NegZero | Fin _ => true
  | _ => false
  end.

(** The real value of a finite number (both zeros are [0]). *)
Definition real_part (x : number) : R :=
  match x with Fin r => r | _ => 0 end.

Definition value (x : number) : option R :=
  match x with
  | NegZero => Some 0
  | Fin r => Some r
  | _ => None
  end.

Definition zero (s : bool) : number := if s then NegZero else Fin 0.

(** The finite result [r] of an operation whose sign rule gives [s]:
    the sign only shows when the result is a zero. *)
Definition finite (s : bool) (r : R) : number :=
  if Req_dec_T r 0 then zero s else Fin r.

(** Unary minus. *)
Definition neg (x : number) : number :=
  match x with
  | NaN => NaN
  | Infinity s => Infinity (negb s)
  | NegZero => Fin 0
  | Fin r => if Req_dec_T r 0 then NegZero else Fin (- r)
  end.

(** [x + y] (Number::add). *)
Definition add (x y : number) : number :=
  match x, y with
  | NaN, _ | _, NaN => NaN
  | Infinity s, Infinity s' => if Bool.eqb s s' then Infinity s else NaN
  | Infinity s, _ => Infinity s
  | _, Infinity s => Infinity s
  | NegZero, NegZero => NegZero
  | _, _ => Fin (real_part x + real_part y)
  end.

(** [x - y] (Number::subtract is [x + (-y)]). *)
Definition sub (x y : number) : number := add x (neg y).

(** [x * y] (Number::multiply). *)
Definition mul (x y : number) : number :=
  match x, y with
  | NaN, _ | _, NaN => NaN
  | Infinity s, Infinity s' => Infinity (xorb s s')
  | Infinity s, _ =>
      if is_zero y then NaN else Infinity (xorb s (signbit y))
  | _, Infinity s =>
      if is_zero x then NaN else Infinity (xorb (signbit x) s)
  | _, _ =>
      finite (xorb (signbit x) (signbit y)) (real_part x * real_part y)
  end.

(** [x / y] (Number::divide). *)
Definition div (x y : number) : number :=
  match x, y with
  | NaN, _ | _, NaN => NaN
  | Infinity _, Infinity _ => NaN
  | Infinity s, _ => Infinity (xorb s (signbit y))
  | _, Infinity s => zero (xorb (signbit x) s)
  | _, _ =>
      if is_zero y then
        if is_zero x then NaN
        else Infinity (xorb (signbit x) (signbit y))
      else finite (xorb (signbit x) (signbit y))
                  (real_part x / real_part y)
  end.

(** [x <= y]; any comparison with [NaN] is [false], the zeros are equal. *)
Definition le (x y : number) : bool :=
  match x, y with
  | NaN, _ | _, NaN => false
  | Infinity true, _ => true
  | _, Infinity false => true
  | Infinity false, _ => false
  | _, Infinity true => false
  | _, _ => if Rle_dec (real_part x) (real_part y) then true else false
  end.

(** [x >= y]. *)
Definition ge (x y : number) : bool := le y x.

(** [x < y]. *)
Definition lt (x y : number) : bool :=
  match x, y with
  | NaN, _ | _, NaN => false
  | Infinity true, Infinity true => false
  | Infinity true, _ => true
  | Infinity false, _ => false
  | _, Infinity false => true
  | _, Infinity true => false
  | _, _ => if Rlt_dec (real_part x) (real_part y) then true else false
  end.

(** [x > y]. *)
Definition gt (x y : number) : bool := lt y x.

(** [x === y] on numbers: [NaN] equals nothing, the two zeros are equal. *)
Definition strict_eq (x y : number) : bool :=
  match x, y with
  | NaN, _ | _, NaN => false
  | Infinity s, Infinity s' => Bool.eqb s s'
  | Infinity _, _ | _, Infinity _ => false
  | _, _ => if Req_dec_T (real_part x) (real_part y) then true else false
  end.

(** ToBoolean on a number: [NaN] and the two zeros are falsy. *)
Definition truthy (x : number) : bool :=
  match x with
  | NaN | NegZero => false
  | Infinity _ => true
  | Fin r => if Req_dec_T r 0 then false else true
  end.

End Number.

Declare Scope js_scope.
Delimit Scope js_scope with js.
Bind Scope js_scope with number.
Infix "+" := Number.add : js_scope.
Infix "-" := Number.sub : js_scope.
Infix "*" := Number.mul : js_scope.
Infix "/" := Number.div : js_scope.

(** [a || b] where [a] is [number | undefined]: [undefined] is falsy. *)
Definition or_else (a : option number) (b : number) : number :=
  match a with
  | Some x => if Number.truthy x then x else b
  | None => b
  end.

(** [Array.prototype.find]: the first element satisfying the predicate,
    [undefined] ([None]) when there is none. *)
Definition Array_find (p : number -> bool) (l : list number) : option number :=
  List.find p l.

(* ================================================================== *)
(** ** The [Math] object *)
(* ================================================================== *)

Module Math.

Definition floor_Z (r : R) : Z := Int_part r.
Definition ceil_Z (r : R) : Z := (- Int_part (- r))%Z.

Definition is_integer (r : R) : bool :=
  if Req_dec_T (IZR (Int_part r)) r then true else false.

Definition is_odd_integer (r : R) : bool :=
  is_integer r && Z.odd (Int_part r).

(** [Math.round]: the nearest integer, ties towards [+Infinity]; a result
    of zero keeps the sign of the argument. *)
Definition round (x : number) : number :=
  match x with
  | Fin r => Number.finite (Number.signbit x) (IZR (floor_Z (r + / 2)))
  | _ => x
  end.

(** [Math.ceil]. *)
Definition ceil (x : number) : number :=
  match x with
  | Fin r => Number.finite (Number.signbit x) (IZR (ceil_Z r))
  | _ => x
  end.

(** [Math.sin]: [NaN] at the infinities, the zeros are kept. *)
Definition sin (x : number) : number :=
  match x with
  | NaN | Infinity _ => NaN
  | NegZero => NegZero
  | Fin r => Fin (Rtrigo_def.sin r)
  end.

(** [Math.pow] (Number::exponentiate), case by case as ECMAScript lists
    them; the last case is the mathematical power. *)
Definition pow (base exponent : number) : number :=
  match exponent with
  | NaN => NaN
  | NegZero => Fin 1
  | Infinity se =>
      match base with
      | NaN => NaN
      | Infinity true | Infinity false => if se then Fin 0 else Infinity false
      | NegZero => if se then Infinity false else Fin 0
      | Fin b =>
          if Req_dec_T b 0 then (if se then Infinity false else Fin 0)
          else if Rlt_dec 1 (Rabs b)
               then (if se then Fin 0 else Infinity false)
          else if Req_dec_T (Rabs b) 1 then NaN
          else (if se then Infinity false else Fin 0)
      end
  | Fin e =>
      if Req_dec_T e 0 then Fin 1 else
      match base with
      | NaN => NaN
      | Infinity false => if Rlt_dec 0 e then Infinity false else Fin 0
      | Infinity true =>
          if Rlt_dec 0 e
          then Infinity (is_odd_integer e)
          else Number.zero (is_odd_integer e)
      | NegZero =>
          if Rlt_dec 0 e
          then Number.zero (is_odd_integer e)
          else Infinity (is_odd_integer e)
      | Fin b =>
          if Req_dec_T b 0
          then (if Rlt_dec 0 e then Fin 0 else Infinity false)
          else if Rlt_dec b 0
               then (if is_integer e then Fin (powerRZ b (Int_part e))
                     else NaN)
               else Fin (Rpower b e)
      end
  end.


(** [Math.cos]: [NaN] at the infinities. *)
Definition cos (x : number) : number :=
  match x with
  | NaN | Infinity _ => NaN
  | NegZero => Fin 1
  | Fin r => Fin (Rtrigo_def.cos r)
  end.

(** [Math.max] and [Math.min] of two numbers: [NaN] if either is, and the
    positive zero is the larger of the two zeros. *)
Definition max (x y : number) : number :=
  match x, y with
  | NaN, _ | _, NaN => NaN
  | _, _ =>
      if Number.lt x y then y
      else if Number.lt y x then x
      else if Number.signbit x then y else x
  end.

Definition min (x y : number) : number :=
  match x, y with
  | NaN, _ | _, NaN => NaN
  | _, _ =>
      if Number.lt x y then x
      else if Number.lt y x then y
      else if Number.signbit x then x else y
  end.

End Math.

(** A source of [Math.random] draws: the sequence of values the runtime's
    generator will return, and how many of them were consumed so far. *)
Record RandomSource : Type := mkRandomSource {
  draws : nat -> R;
  consumed : nat
}.

(** Every draw of the generator lies in [[0, 1)]. *)
Definition uniform_source (g : RandomSource) : Prop :=
  forall i : nat, 0 <= draws g i < 1.

(** [Math.random()]: the next draw, and the generator advanced by one. *)
Definition Math_random (g : RandomSource) : number * RandomSource :=
  (Fin (draws g (consumed g)),
   mkRandomSource (draws g) (S (consumed g))).

(* ================================================================== *)
(** ** [types.ts] *)
(* ================================================================== *)

Record GearParams : Type := mkGearParams {
  teeth : number;
  module : number;
  pressureAngle : number;
  faceWidth : number;
  rpm : number;
  torque : number;
  diameter : number
}.

Inductive InputVariability : Type := constant | sine | noise.

Record DesignRequirements : Type := mkDesignRequirements {
  targetOutputTorque : number;
  targetOutputRPM : number;
  nominalInputRPM : number;
  materialYieldStrength : number;
  inputVariability : InputVariability
}.

Record SimulationPoint : Type := mkSimulationPoint {
  time : number;
  inputTorque : number;
  outputTorque : number;
  inputRPM : number;
  outputRPM : number;
  stress : number
}.

Record DesignResult : Type := mkDesignResult {
  pinion : GearParams;
  gear : GearParams;
  ratio : number;
  centerDistance : number;
  safetyFactor : number
}.

(* ================================================================== *)
(** ** [services/gearMath.ts] *)
(* ================================================================== *)

Local Open Scope js_scope.

(** [calculateLewisFactor]: [0.484 - (2.87 / numTeeth)]. *)
Definition calculateLewisFactor (numTeeth : number) : number :=
  Fin 0.484 - (Fin 2.87 / numTeeth).

Definition standardModules : list number :=
  [Fin 0.5; Fin 0.8; Fin 1; Fin 1.25; Fin 1.5; Fin 2; Fin 2.5; Fin 3;
   Fin 4; Fin 5; Fin 6; Fin 8; Fin 10; Fin 12; Fin 16; Fin 20].

(** The locals of [calculateGearDesign], one definition per [const]/[let],
    in the order of the source.  Two locals share their name with a field
    of [DesignResult] and are renamed: the source's [ratio] is
    [nominalRatio], its [safetyFactor] is [designSafetyFactor]. *)
Section DesignLocals.
Variable req : DesignRequirements.

Definition nominalRatio : number :=
  nominalInputRPM req / targetOutputRPM req.

Definition pinionTeeth : number := Fin 18.

Definition gearTeeth : number := Math.round (pinionTeeth * nominalRatio).

Definition actualRatio : number := gearTeeth / pinionTeeth.

Definition designSafetyFactor : number := Fin 2.

Definition allowableStress : number :=
  (materialYieldStrength req * Fin 1000000) / designSafetyFactor.

Definition pinionTorque : number := targetOutputTorque req / actualRatio.

Definition mCubed : number :=
  let Y := calculateLewisFactor pinionTeeth in
  let k := Fin 10 in
  (Fin 2 * pinionTorque) / (k * pinionTeeth * Y * allowableStress).

Definition moduleMeters : number := Math.pow mCubed (Fin 1 / Fin 3).

Definition moduleMm : number := moduleMeters * Fin 1000.

Definition selectedModule : number :=
  or_else (Array_find (fun m => Number.ge m moduleMm) standardModules)
          (Math.ceil moduleMm).

Definition pinionParams : GearParams :=
  {| teeth := pinionTeeth;
     module := selectedModule;
     pressureAngle := Fin 20;
     faceWidth := selectedModule * Fin 10;
     rpm := nominalInputRPM req;
     torque := pinionTorque;
     diameter := pinionTeeth * selectedModule |}.

Definition gearParams : GearParams :=
  {| teeth := gearTeeth;
     module := selectedModule;
     pressureAngle := Fin 20;
     faceWidth := selectedModule * Fin 10;
     rpm := nominalInputRPM req / actualRatio;
     torque := targetOutputTorque req;
     diameter := gearTeeth * selectedModule |}.

End DesignLocals.

(** [calculateGearDesign]. *)
Definition calculateGearDesign (req : DesignRequirements) : DesignResult :=
  {| pinion := pinionParams req;
     gear := gearParams req;
     ratio := actualRatio req;
     centerDistance :=
       (diameter (pinionParams req) + diameter (gearParams req)) / Fin 2;
     safetyFactor := designSafetyFactor |}.

(** The [inputFactor] of [simulateStep]: [1.0] unless the mode is ['sine']
    or ['noise']; only the ['noise'] branch calls [Math.random]. *)
Definition inputFactor (time : number) (req : DesignRequirements)
    (g : RandomSource) : number * RandomSource :=
  match inputVariability req with
  | sine => (Fin 1 + Fin 0.3 * Math.sin (time * Fin 2), g)
  | noise =>
      let '(u, g') := Math_random g in
      (Fin 1 + (u - Fin 0.5) * Fin 0.4, g')
  | constant => (Fin 1, g)
  end.

(** [simulateStep]; the generator is threaded through the call. *)
Definition simulateStep (time : number) (design : DesignResult)
    (req : DesignRequirements) (g : RandomSource)
    : SimulationPoint * RandomSource :=
  let '(factor, g') := inputFactor time req g in
  let currentInputRPM := rpm (pinion design) * factor in
  let currentOutputRPM := currentInputRPM / ratio design in
  let currentOutputTorque := torque (gear design) in
  let currentInputTorque := currentOutputTorque / ratio design in
  let Y := calculateLewisFactor (teeth (pinion design)) in
  let pitchRadiusMeters := (diameter (pinion design) / Fin 2) / Fin 1000 in
  let faceWidthMeters := faceWidth (pinion design) / Fin 1000 in
  let moduleMeters := module (pinion design) / Fin 1000 in
  let tangentialForce := currentInputTorque / pitchRadiusMeters in
  let stressPa := tangentialForce / (faceWidthMeters * moduleMeters * Y) in
  ({| time := time;
      inputTorque := currentInputTorque;
      outputTorque := currentOutputTorque;
      inputRPM := currentInputRPM;
      outputRPM := currentOutputRPM;
      stress := stressPa / Fin 1e6 |},
   g').

Local Close Scope js_scope.

(* ================================================================== *)
(** ** Vocabulary of the properties *)
(* ================================================================== *)

(** [m] is the first entry of [l] that is [>= x]. *)
Definition first_at_least (l : list number) (x m : number) : Prop :=
  exists before after : list number,
    l = before ++ m :: after
    /\ Number.ge m x = true
    /\ Forall (fun y => Number.ge y x = false) before.



(** [x] is finite and deviates from the finite [centre] by at most the
    fraction [f] of it. *)
Definition within_fraction (f : R) (centre x : number) : Prop :=
  exists c v : R,
    Number.value centre = Some c /\ Number.value x = Some v
    /\ Rabs (v - c) <= f * Rabs c.

(** The point [p] with its [time] field replaced. *)
Definition with_time (t : number) (p : SimulationPoint) : SimulationPoint :=
  {| time := t;
     inputTorque := inputTorque p;
     outputTorque := outputTorque p;
     inputRPM := inputRPM p;
     outputRPM := outputRPM p;
     stress := stress p |}.

(** The design [d] with another speed on the pinion shaft. *)
Definition with_pinion_rpm (r : number) (d : DesignResult) : DesignResult :=
  {| pinion :=
       {| teeth := teeth (pinion d);
          module := module (pinion d);
          pressureAngle := pressureAngle (pinion d);
          faceWidth := faceWidth (pinion d);
          rpm := r;
          torque := torque (pinion d);
          diameter := diameter (pinion d) |};
     gear := gear d;
     ratio := ratio d;
     centerDistance := centerDistance d;
     safetyFactor := safetyFactor d |}.

(** The Lewis bending stress of [simulateStep], in MPa, as a function of
    the design alone. *)
Definition lewisStress (design : DesignResult) : number :=
  (((torque (gear design) / ratio design)
    / ((diameter (pinion design) / Fin 2) / Fin 1000))
   / ((faceWidth (pinion design) / Fin 1000)
      * (module (pinion design) / Fin 1000)
      * calculateLewisFactor (teeth (pinion design)))
   / Fin 1e6)%js.

(* ================================================================== *)
(** ** Fixtures *)
(* ================================================================== *)

(** The example scenario of the design document (also the initial state
    of [App.tsx]). *)
Module Scenario.

Definition req : DesignRequirements :=
  {| targetOutputTorque := Fin 50;
     targetOutputRPM := Fin 120;
     nominalInputRPM := Fin 1200;
     materialYieldStrength := Fin 250;
     inputVariability := constant |}.

Definition design : DesignResult := calculateGearDesign req.

(** The Lewis factor of the 18-tooth pinion. *)
Definition Y18 : R := 0.484 - 2.87 / 18.

(** [mCubed] of the scenario, in cubic metres. *)
Definition m3 : R := (2 * 5) / (10 * 18 * Y18 * (250 * 1000000 / 2)).

(** The raw module, in millimetres. *)
Definition rawMm : R := Rpower m3 (1 / 3) * 1000.

(** The Lewis stress formula of [simulateStep] on the scenario's design:
    5 Nm on an 18-tooth pinion of module 1.25 mm, in MPa. *)
Definition sigma : R :=
  (5 / (18 * 1.25 / 2 / 1000))
  / ((1.25 * 10 / 1000) * (1.25 / 1000) * Y18) / 1e6.

(** A generator that always draws [0.25]. *)
Definition quarter : RandomSource := mkRandomSource (fun _ => 0.25) 0.

(** The scenario under the two fluctuating modes. *)
Definition rippled : DesignRequirements :=
  {| targetOutputTorque := Fin 50;
     targetOutputRPM := Fin 120;
     nominalInputRPM := Fin 1200;
     materialYieldStrength := Fin 250;
     inputVariability := sine |}.

Definition noisy : DesignRequirements :=
  {| targetOutputTorque := Fin 50;
     targetOutputRPM := Fin 120;
     nominalInputRPM := Fin 1200;
     materialYieldStrength := Fin 250;
     inputVariability := noise |}.

End Scenario.

(** Requirements at the edges of the operating range. *)
Module Corner.

(** The scenario with the sign of the torque reversed. *)
Definition negativeTorque : DesignRequirements :=
  {| targetOutputTorque := Fin (-50);
     targetOutputRPM := Fin 120;
     nominalInputRPM := Fin 1200;
     materialYieldStrength := Fin 250;
     inputVariability := constant |}.

(** A step-up stage: the output turns a hundred times faster than the
    input. *)
Definition stepUp : DesignRequirements :=
  {| targetOutputTorque := Fin 50;
     targetOutputRPM := Fin 100;
     nominalInputRPM := Fin 1;
     materialYieldStrength := Fin 250;
     inputVariability := constant |}.

(** The scenario with a torque eight thousand times larger. *)
Definition heavy : DesignRequirements :=
  {| targetOutputTorque := Fin 400000;
     targetOutputRPM := Fin 120;
     nominalInputRPM := Fin 1200;
     materialYieldStrength := Fin 250;
     inputVariability := constant |}.

(** The scenario with the output shaft turning backwards. *)
Definition reversed : DesignRequirements :=
  {| targetOutputTorque := Fin 50;
     targetOutputRPM := Fin (-120);
     nominalInputRPM := Fin 1200;
     materialYieldStrength := Fin 250;
     inputVariability := constant |}.

End Corner.

(** More requirements at the edges of the operating range. *)
Module Edge.

(** The scenario with the output shaft at rest. *)
Definition stalled : DesignRequirements :=
  {| targetOutputTorque := Fin 50;
     targetOutputRPM := Fin 0;
     nominalInputRPM := Fin 1200;
     materialYieldStrength := Fin 250;
     inputVariability := constant |}.

End Edge.

(* ================================================================== *)
(** ** Finite values *)
(* ================================================================== *)

(** [x] is finite and its real value is [r]. *)
Definition has_value (x : number) (r : R) : Prop := Number.value x = Some r.

(** The real cube root of a non-negative real, as [Math.pow] with the
    exponent [1/3] computes it. *)
Definition cube_root (c : R) : R :=
  if Req_dec_T c 0 then 0 else Rpower c (1 / 3).

(** Requirements in the intended operating range: a non-negative torque
    [T], a positive yield strength [S], positive speeds [n] (input) and
    [t] (output) with at least half a tooth's worth of ratio. *)
Definition operating_range (req : DesignRequirements) (T t n S : R) : Prop :=
  targetOutputTorque req = Fin T /\ targetOutputRPM req = Fin t
  /\ nominalInputRPM req = Fin n /\ materialYieldStrength req = Fin S
  /\ 0 <= T /\ 0 < S /\ 0 < n /\ 0 < t <= 36 * n.

(** Two finite numbers in increasing order, and a list of numbers each of
    whose entries is followed by larger ones only. *)
Definition module_le (x y : number) : Prop :=
  exists a b : R, x = Fin a /\ y = Fin b /\ a <= b.

Fixpoint increasing (l : list number) : Prop :=
  match l with
  | [] => True
  | x :: l' => Forall (module_le x) l' /\ increasing l'
  end.

(* ================================================================== *)
(** ** [App.tsx]: the state of the application and its frame loop *)
(* ================================================================== *)

Module App.

(** The state of the component: the [useState] cells of [App], with the
    generator of [Math.random] and the [lastTime] of the frame loop. *)
Record State : Type := mkState {
  req : DesignRequirements;
  design : DesignResult;
  simulationData : list SimulationPoint;
  isRunning : bool;
  simTime : number;
  lastTime : number;
  random : RandomSource
}.

(** The updater passed to [setSimulationData]: append the point and keep
    the last 200. *)
Definition pushPoint (point : SimulationPoint)
    (currentData : list SimulationPoint) : list SimulationPoint :=
  let newData := currentData ++ [point] in
  if (200 <? length newData)%nat
  then skipn (length newData - 200) newData
  else newData.

(** One call of [loop] by [requestAnimationFrame] at time [currentTime]
    (in milliseconds). *)
Definition loop (currentTime : number) (st : State) : State :=
  let dt := ((currentTime - lastTime st) / Fin 1000)%js in
  if isRunning st then
    let newTime := (simTime st + dt)%js in
    let '(point, g) :=
      simulateStep newTime (design st) (req st) (random st) in
    {| req := req st;
       design := design st;
       simulationData := pushPoint point (simulationData st);
       isRunning := true;
       simTime := newTime;
       lastTime := currentTime;
       random := g |}
  else
    {| req := req st;
       design := design st;
       simulationData := simulationData st;
       isRunning := false;
       simTime := simTime st;
       lastTime := currentTime;
       random := random st |}.

(** The frame loop lives in an effect that depends on [isRunning],
    [design] and [req]: whenever one of them changes the effect starts
    again and [lastTime] is read afresh from the clock ([now]). *)

(** [handleOptimize]: solve again and restart the simulation. *)
Definition handleOptimize (now : number) (st : State) : State :=
  {| req := req st;
     design := calculateGearDesign (req st);
     simulationData := [];
     isRunning := isRunning st;
     simTime := Fin 0;
     lastTime := now;
     random := random st |}.

(** The reset button. *)
Definition reset (st : State) : State :=
  {| req := req st;
     design := design st;
     simulationData := [];
     isRunning := isRunning st;
     simTime := Fin 0;
     lastTime := lastTime st;
     random := random st |}.

(** The run/pause button. *)
Definition toggleRunning (now : number) (st : State) : State :=
  {| req := req st;
     design := design st;
     simulationData := simulationData st;
     isRunning := negb (isRunning st);
     simTime := simTime st;
     lastTime := now;
     random := random st |}.

(** [setReq], called by the input panel with the edited requirements. *)
Definition setReq (now : number) (r : DesignRequirements) (st : State)
    : State :=
  {| req := r;
     design := design st;
     simulationData := simulationData st;
     isRunning := isRunning st;
     simTime := simTime st;
     lastTime := now;
     random := random st |}.

(** What can happen to the component. *)
Inductive Event : Type :=
  | Frame (currentTime : number)
  | Toggle (now : number)
  | Edit (now : number) (r : DesignRequirements)
  | Reset
  | Optimize (now : number).

Definition handle (st : State) (e : Event) : State :=
  match e with
  | Frame currentTime => loop currentTime st
  | Toggle now => toggleRunning now st
  | Edit now r => setReq now r st
  | Reset => reset st
  | Optimize now => handleOptimize now st
  end.

Definition run (events : list Event) (st : State) : State :=
  fold_left handle events st.

(** A sequence of frames, at the given times. *)
Definition frames (times : list number) (st : State) : State :=
  run (map Frame times) st.

(** The state after mounting: the initial requirements, their design, an
    empty buffer, paused. *)
Definition initial (now : number) (g : RandomSource) : State :=
  {| req := Scenario.req;
     design := calculateGearDesign Scenario.req;
     simulationData := [];
     isRunning := false;
     simTime := Fin 0;
     lastTime := now;
     random := g |}.

(** The point a frame at [currentTime] produces when the simulation is
    running, and every point a sequence of frames produces, oldest first. *)
Definition framePoint (currentTime : number) (st : State) : SimulationPoint :=
  fst (simulateStep
         (simTime st + (currentTime - lastTime st) / Fin 1000)%js
         (design st) (req st) (random st)).

Fixpoint trace (times : list number) (st : State) : list SimulationPoint :=
  match times with
  | [] => []
  | currentTime :: rest =>
      framePoint currentTime st :: trace rest (loop currentTime st)
  end.

(** The last [k] elements of a list. *)
Definition lastn {A : Type} (k : nat) (l : list A) : list A :=
  skipn (length l - k) l.

End App.

(* ================================================================== *)
(** ** [GearVisualizer.tsx]: zoom and view box *)
(* ================================================================== *)

Module GearVisualizer.
Local Open Scope js_scope.

(** The three zoom buttons, and the effect that resets the zoom when the
    ratio or the center distance of the design changes. *)
Definition zoomIn (z : number) : number := Math.min (z * Fin 1.2) (Fin 5).
Definition resetView (z : number) : number := Fin 1.
Definition zoomOut (z : number) : number := Math.max (z / Fin 1.2) (Fin 0.5).

Inductive ZoomAction : Type := ZoomIn | ResetView | ZoomOut | DesignChanged.

Definition setZoom (z : number) (a : ZoomAction) : number :=
  match a with
  | ZoomIn => zoomIn z
  | ResetView => resetView z
  | ZoomOut => zoomOut z
  | DesignChanged => Fin 1
  end.

(** The zoom after a sequence of actions; the state starts at [1]. *)
Definition zoomAfter (actions : list ZoomAction) : number :=
  fold_left setZoom actions (Fin 1).

Record Box : Type := mkBox {
  boxX : number;
  boxY : number;
  boxWidth : number;
  boxHeight : number
}.

(** The bounding box of the two gears with its margin: [minX], [minY],
    [baseWidth], [baseHeight]. *)
Definition baseBox (design : DesignResult) : Box :=
  let rPinion := diameter (pinion design) / Fin 2 in
  let rGear := diameter (gear design) / Fin 2 in
  let maxR := Math.max rPinion rGear in
  let margin :=
    Math.max (module (pinion design) * Fin 2)
             (centerDistance design * Fin 0.1) in
  let minX := Number.neg rPinion - margin in
  let maxX := centerDistance design + rGear + margin in
  let minY := Number.neg maxR - margin in
  let maxY := maxR + margin in
  {| boxX := minX; boxY := minY;
     boxWidth := maxX - minX; boxHeight := maxY - minY |}.

(** The [viewBox] of the drawing at a zoom level: [viewX], [viewY],
    [viewWidth], [viewHeight]. *)
Definition viewBox (design : DesignResult) (zoom : number) : Box :=
  let base := baseBox design in
  let viewWidth := boxWidth base / zoom in
  let viewHeight := boxHeight base / zoom in
  {| boxX := boxX base + (boxWidth base - viewWidth) / Fin 2;
     boxY := boxY base + (boxHeight base - viewHeight) / Fin 2;
     boxWidth := viewWidth;
     boxHeight := viewHeight |}.

End GearVisualizer.

(* ================================================================== *)
(** ** Strings *)
(* ================================================================== *)

(** JavaScript leaves the digits of a number to the runtime: the conversion
    of a number to a string ([Number::toString], used by template literals)
    and [Number.prototype.toFixed] are parameters of the functions that
    print numbers. *)
Module Text.
Import Stdlib.Strings.String Stdlib.Strings.Ascii.
Local Open Scope string_scope.

(** The line feed, and a line ending in one. *)
Definition LF : string := String (ascii_of_nat 10) EmptyString.
Definition line (s : string) : string := s ++ LF.

(** [s.replace(c, d)] for a pattern of one character: the first [c] of
    [s] becomes [d]. *)
Fixpoint replace (c d : ascii) (s : string) : string :=
  match s with
  | EmptyString => EmptyString
  | String a s' =>
      if Ascii.eqb a c then String d s' else String a (replace c d s')
  end.

(** [l.join(sep)]. *)
Definition join (sep : string) (l : list string) : string := concat sep l.

End Text.

(** How a call ends: with a value, or with a [TypeError] thrown. *)
Inductive Completion (A : Type) : Type :=
  | Normal (value : A)
  | TypeError.
Arguments Normal {A} value.
Arguments TypeError {A}.

(* ================================================================== *)
(** ** [gearMath.ts]: the outline of a gear as an SVG path *)
(* ================================================================== *)

Module GearPath.
Import Stdlib.Strings.String Stdlib.Strings.Ascii.
Local Open Scope js_scope.

(** [export const PI = Math.PI]. *)
Definition PI : number := Fin Rtrigo1.PI.

(** The four vertices of tooth [i]: root, tip start, tip end, next root
    ([angle0], [angle2], [angle3], [angle5] of the source; [angle1] and
    [angle4] are never read). *)
Definition toothVertices (teeth modulus i : number)
    : list (number * number) :=
  let pitchDiameter := teeth * modulus in
  let outerDiameter := pitchDiameter + Fin 2 * modulus in
  let rootDiameter := pitchDiameter - Fin 2.5 * modulus in
  let cx := Fin 0 in
  let cy := Fin 0 in
  let angle0 := i * (Fin 2 * PI) / teeth in
  let angle2 := angle0 + (PI / teeth) * Fin 0.5 in
  let angle3 := angle0 + (PI / teeth) * Fin 0.8 in
  let angle5 := (i + Fin 1) * (Fin 2 * PI) / teeth in
  let rRoot := rootDiameter / Fin 2 in
  let rOuter := outerDiameter / Fin 2 in
  [ (cx + rRoot * Math.cos angle0, cy + rRoot * Math.sin angle0);
    (cx + rOuter * Math.cos angle2, cy + rOuter * Math.sin angle2);
    (cx + rOuter * Math.cos angle3, cy + rOuter * Math.sin angle3);
    (cx + rRoot * Math.cos angle5, cy + rRoot * Math.sin angle5) ].

Section Path.
Variable Number_toString : number -> string.

(** The template [`L ${x} ${y}`]. *)
Definition lineTo (p : number * number) : string :=
  ("L " ++ Number_toString (fst p) ++ " " ++ Number_toString (snd p))%string.

(** The [for] loop over the teeth: [i] counts up from 0 while
    [i < teeth]; [None] when the fuel runs out first. *)
Fixpoint pathLoop (fuel : nat) (teeth modulus i : number)
    (points : list string) : option (list string) :=
  match fuel with
  | O => None
  | S fuel' =>
      if Number.lt i teeth
      then pathLoop fuel' teeth modulus (i + Fin 1)
             (points ++ map lineTo (toothVertices teeth modulus i))
      else Some points
  end.

(** The closing of the path: nothing for no points, otherwise the first
    command turned into a move, the others, and [Z]. *)
Definition closePath (points : list string) : string :=
  match points with
  | [] => ""%string
  | first :: rest =>
      let startPoint := Text.replace "L"%char "M"%char first in
      (startPoint ++ " " ++ Text.join " " rest ++ " Z")%string
  end.

(** [generateGearPath]; the pressure angle (20 by default) only enters
    [baseDiameter], which is never read. *)
Definition generateGearPath (fuel : nat) (teeth modulus : number)
    (pressureAngleDeg : number) : option string :=
  option_map closePath (pathLoop fuel teeth modulus (Fin 0) []).

End Path.

(** The vertices of the first [n] teeth, in drawing order. *)
Definition outline (teeth modulus : number) (n : nat)
    : list (number * number) :=
  flat_map (fun j => toothVertices teeth modulus (Fin (INR j))) (seq 0 n).

(** The number of iterations of a loop [for (i = 0; i < teeth; i++)] on a
    finite [teeth] of value [r]. *)
Definition iterations (r : R) : nat := Z.to_nat (Math.ceil_Z r).

End GearPath.

(** The point [p] has finite coordinates and lies on the circle of the
    given radius around the origin. *)
Definition on_circle (radius : R) (p : number * number) : Prop :=
  exists x y : R,
    has_value (fst p) x /\ has_value (snd p) y
    /\ Rsqr x + Rsqr y = Rsqr radius.

(** The point [p] has the finite coordinates [(x, y)]. *)
Definition at_point (x y : R) (p : number * number) : Prop :=
  has_value (fst p) x /\ has_value (snd p) y.

(* ================================================================== *)
(** ** [dxfExporter.ts]: the outline of a gear as a DXF polyline *)
(* ================================================================== *)

Module DxfExporter.
Import Stdlib.Strings.String Stdlib.Strings.Ascii.
Local Open Scope js_scope.

(** The four points of tooth [t]: root, tip start, tip end, next root
    ([baseDiameter] and [steps] of the source are never read). *)
Definition toothPoints (gear : GearParams) (t : number)
    : list (number * number) :=
  let pitchDiameter := teeth gear * module gear in
  let outerDiameter := pitchDiameter + Fin 2 * module gear in
  let rootDiameter := pitchDiameter - Fin 2.5 * module gear in
  let angleStart := t * (Fin 2 * GearPath.PI) / teeth gear in
  let rRoot := rootDiameter / Fin 2 in
  let rTip := outerDiameter / Fin 2 in
  let angularWidth :=
    (GearPath.PI * module gear / Fin 2) / (pitchDiameter / Fin 2) in
  let angleTipStart := angleStart + angularWidth * Fin 0.4 in
  let angleTipEnd := angleStart + angularWidth * Fin 0.6 in
  let angleRootEnd := (t + Fin 1) * (Fin 2 * GearPath.PI) / teeth gear in
  [ (rRoot * Math.cos angleStart, rRoot * Math.sin angleStart);
    (rTip * Math.cos angleTipStart, rTip * Math.sin angleTipStart);
    (rTip * Math.cos angleTipEnd, rTip * Math.sin angleTipEnd);
    (rRoot * Math.cos angleRootEnd, rRoot * Math.sin angleRootEnd) ].

(** The [for] loop over the teeth; [None] when the fuel runs out. *)
Fixpoint pointsLoop (fuel : nat) (gear : GearParams) (t : number)
    (points : list (number * number)) : option (list (number * number)) :=
  match fuel with
  | O => None
  | S fuel' =>
      if Number.lt t (teeth gear)
      then pointsLoop fuel' gear (t + Fin 1) (points ++ toothPoints gear t)
      else Some points
  end.

Section Dxf.
Variable Number_toFixed : number -> nat -> string.
Local Open Scope string_scope.

Definition header : string :=
  Text.line "0" ++ Text.line "SECTION" ++ Text.line "2"
  ++ Text.line "ENTITIES".

Definition polyline : string :=
  Text.line "0" ++ Text.line "POLYLINE" ++ Text.line "8" ++ Text.line "0"
  ++ Text.line "66" ++ Text.line "1".

Definition seqend : string := Text.line "0" ++ Text.line "SEQEND".

Definition trailer : string :=
  Text.line "0" ++ Text.line "ENDSEC" ++ Text.line "0" ++ Text.line "EOF".

(** The four [dxf += ...] that write one vertex. *)
Definition emitVertex (dxf : string) (p : number * number) : string :=
  let dxf := dxf ++ (Text.line "0" ++ Text.line "VERTEX" ++ Text.line "8"
                     ++ Text.line "0") in
  let dxf := dxf ++ (Text.line "10" ++ Text.line (Number_toFixed (fst p) 4)) in
  let dxf := dxf ++ (Text.line "20" ++ Text.line (Number_toFixed (snd p) 4)) in
  dxf ++ (Text.line "30" ++ Text.line "0.0").

(** [generateGearDXF]: reading [points[0].x] throws when there is no
    point. *)
Definition generateGearDXF (fuel : nat) (gear : GearParams)
    : option (Completion string) :=
  match pointsLoop fuel gear (Fin 0) [] with
  | None => None
  | Some points =>
      let dxf := header in
      let dxf := dxf ++ polyline in
      let dxf := fold_left emitVertex points dxf in
      match points with
      | [] => Some TypeError
      | first :: _ =>
          let dxf := emitVertex dxf first in
          let dxf := dxf ++ seqend in
          Some (Normal (dxf ++ trailer))
      end
  end.

End Dxf.

(** The points of the first [n] teeth. *)
Definition polygon (gear : GearParams) (n : nat) : list (number * number) :=
  flat_map (fun j => toothPoints gear (Fin (INR j))) (seq 0 n).

End DxfExporter.

(* ================================================================== *)
(** ** [InputPanel.tsx]: power and torque entry *)
(* ================================================================== *)

Module InputPanel.
Local Open Scope js_scope.

(** [x || y] on numbers. *)
Definition or_number (x y : number) : number :=
  if Number.truthy x then x else y.

(** [parseFloat(x.toFixed(2))]: [toFixed] prints the multiple of 0.01
    nearest to [x] (the larger in magnitude of two equally near ones, the
    sign apart), or [x] itself in full when it is not finite or reaches
    [1e21]; [parseFloat] reads the number back.  The negative zero prints
    as [0.00]; a negative number that rounds to zero prints as [-0.00]. *)
Definition parseFloat_toFixed2 (x : number) : number :=
  match x with
  | Fin r =>
      if Rle_dec 1e21 (Rabs r) then x
      else
        let n := IZR (Math.floor_Z (Rabs r * 100 + / 2)) in
        Number.finite (Number.signbit x)
          (if Rlt_dec r 0 then - (n / 100) else n / 100)
  | NegZero => Fin 0
  | _ => x
  end.

Inductive PowerUnit : Type := kw | hp.
Inductive EntryMode : Type := torqueMode | powerMode.

(** [handleChange('targetOutputTorque', value)]: the requirements handed
    to [onChange]. *)
Definition withTargetOutputTorque (req : DesignRequirements)
    (value : number) : DesignRequirements :=
  {| targetOutputTorque := value;
     targetOutputRPM := targetOutputRPM req;
     nominalInputRPM := nominalInputRPM req;
     materialYieldStrength := materialYieldStrength req;
     inputVariability := inputVariability req |}.

(** The first sync effect: the output power shown for the requirements. *)
Definition outputPowerShown (req : DesignRequirements)
    (outputPowerUnit : PowerUnit) : number :=
  let kW := (targetOutputTorque req * targetOutputRPM req) / Fin 9550 in
  match outputPowerUnit with
  | kw => parseFloat_toFixed2 kW
  | hp => parseFloat_toFixed2 (kW / Fin 0.7457)
  end.

(** The second sync effect: the source value shown. *)
Definition sourceShown (req : DesignRequirements) (sourceMode : EntryMode)
    (sourceUnit : PowerUnit) : number :=
  let powerKW := (targetOutputTorque req * targetOutputRPM req) / Fin 9550 in
  let inputTorque :=
    if Number.gt (nominalInputRPM req) (Fin 0)
    then (powerKW * Fin 9550) / nominalInputRPM req
    else Fin 0 in
  match sourceMode with
  | powerMode =>
      match sourceUnit with
      | kw => parseFloat_toFixed2 powerKW
      | hp => parseFloat_toFixed2 (powerKW / Fin 0.7457)
      end
  | torqueMode => parseFloat_toFixed2 inputTorque
  end.

(** [handleOutputPowerChange]: the requirements handed to [onChange]. *)
Definition handleOutputPowerChange (req : DesignRequirements)
    (outputPowerUnit : PowerUnit) (val : number) : DesignRequirements :=
  let kW := match outputPowerUnit with
            | hp => val * Fin 0.7457
            | kw => val
            end in
  let newTorque :=
    (Fin 9550 * kW) / or_number (targetOutputRPM req) (Fin 1) in
  withTargetOutputTorque req (parseFloat_toFixed2 newTorque).

(** [handleSourceValChange]: the requirements handed to [onChange]. *)
Definition handleSourceValChange (req : DesignRequirements)
    (sourceMode : EntryMode) (sourceUnit : PowerUnit) (val : number)
    : DesignRequirements :=
  let kwIn :=
    match sourceMode with
    | powerMode =>
        match sourceUnit with
        | kw => val
        | hp => val * Fin 0.7457
        end
    | torqueMode => (val * nominalInputRPM req) / Fin 9550
    end in
  let newOutputTorque :=
    (kwIn * Fin 9550) / or_number (targetOutputRPM req) (Fin 1) in
  withTargetOutputTorque req (parseFloat_toFixed2 newOutputTorque).

End InputPanel.

(* ================================================================== *)
(** ** Tactics *)
(* ================================================================== *)

(** Decide every sign and zero test met in the goal, closing the
    impossible branches by linear arithmetic. *)
Ltac decide_reals :=
  repeat match goal with
    | |- context [Req_dec_T ?a ?b] =>
        destruct (Req_dec_T a b); try (exfalso; lra)
    | |- context [Rlt_dec ?a ?b] =>
        destruct (Rlt_dec a b); try (exfalso; lra)
    | |- context [Rle_dec ?a ?b] =>
        destruct (Rle_dec a b); try (exfalso; lra)
    end.

Ltac fin_eq := try reflexivity; f_equal; try lra; try (field; lra).


(* ================================================================== *)
(** ** Arithmetic on finite numbers *)
(* ================================================================== *)

Section FiniteArithmetic.
Local Open Scope js_scope.
Variables a b : R.

Lemma add_Fin : Fin a + Fin b = Fin (a + b).
Proof. reflexivity. Qed.

Lemma sub_Fin : Fin a - Fin b = Fin (a - b).
Proof.
  unfold Number.sub, Number.neg.
  destruct (Req_dec_T b 0) as [-> | Hb]; simpl; f_equal; lra.
Qed.

Lemma mul_Fin : a <> 0 -> b <> 0 -> Fin a * Fin b = Fin (a * b).
Proof.
  intros Ha Hb. unfold Number.mul, Number.finite.
  destruct (Req_dec_T (Number.real_part (Fin a) * Number.real_part (Fin b)) 0)
    as [E | E]; [| reflexivity].
  simpl in E. apply Rmult_integral in E. tauto.
Qed.

Lemma div_Fin : a <> 0 -> b <> 0 -> Fin a / Fin b = Fin (a / b).
Proof.
  intros Ha Hb. unfold Number.div, Number.is_zero, Number.finite.
  destruct (Req_dec_T b 0) as [E | _]; [contradiction |].
  destruct (Req_dec_T (Number.real_part (Fin a) / Number.real_part (Fin b)) 0)
    as [E | E]; [| reflexivity].
  simpl in E. unfold Rdiv in E. apply Rmult_integral in E.
  destruct E as [E | E]; [contradiction |].
  exfalso. revert E. now apply Rinv_neq_0_compat.
Qed.

(** A product or quotient of finite numbers with a non-zero divisor is
    finite and has the value one expects; only the sign of a zero result
    is lost in [value]. *)
Lemma mul_Fin_value : Number.value (Fin a * Fin b) = Some (a * b)%R.
Proof.
  unfold Number.mul, Number.finite, Number.zero. simpl.
  destruct (Req_dec_T (a * b) 0) as [E | E]; [| reflexivity].
  rewrite E. now destruct (xorb _ _).
Qed.

Lemma div_Fin_value :
  b <> 0 -> Number.value (Fin a / Fin b) = Some (a / b)%R.
Proof.
  intros Hb. unfold Number.div, Number.is_zero, Number.finite, Number.zero.
  destruct (Req_dec_T b 0) as [E | _]; [contradiction |]. simpl.
  destruct (Req_dec_T (a / b) 0) as [E | E]; [| reflexivity].
  rewrite E. now destruct (xorb _ _).
Qed.

End FiniteArithmetic.

(** [Math.round] and [Math.ceil] on a finite number whose result is not a
    zero. *)
Lemma round_Fin (r : R) (z : Z) :
  z <> 0%Z -> IZR z <= r + / 2 < IZR z + 1 ->
  Math.round (Fin r) = Fin (IZR z).
Proof.
  intros Hz Hr. unfold Math.round, Math.floor_Z, Number.finite.
  assert (E : Int_part (r + / 2) = z).
  { symmetry. apply Int_part_spec. lra. }
  rewrite E. destruct (Req_dec_T (IZR z) 0) as [E0 | _]; [| reflexivity].
  apply eq_IZR_R0 in E0. contradiction.
Qed.

Lemma ceil_Z_spec (r : R) (z : Z) :
  IZR z - 1 < r <= IZR z -> Math.ceil_Z r = z.
Proof.
  intros Hr. unfold Math.ceil_Z.
  assert (E : (- z)%Z = Int_part (- r)).
  { apply Int_part_spec. rewrite opp_IZR. lra. }
  rewrite <- E. lia.
Qed.

Lemma ceil_Z_bounds (r : R) :
  IZR (Math.ceil_Z r) - 1 < r <= IZR (Math.ceil_Z r).
Proof.
  unfold Math.ceil_Z. rewrite opp_IZR.
  destruct (base_Int_part (- r)). lra.
Qed.

Lemma floor_Z_bounds (r : R) :
  IZR (Math.floor_Z r) <= r < IZR (Math.floor_Z r) + 1.
Proof. unfold Math.floor_Z. destruct (base_Int_part r). lra. Qed.

(** The cube root computed by [Math.pow (Fin c) (Fin 1 / Fin 3)] for a
    positive [c], and its bracketing between two positive bounds. *)
Lemma pow_third_positive (c : R) :
  0 < c ->
  Math.pow (Fin c) (Fin 1 / Fin 3)%js = Fin (Rpower c (1 / 3)).
Proof.
  intros Hc. rewrite div_Fin by lra.
  unfold Math.pow. decide_reals. reflexivity.
Qed.

Lemma Rpower_third_cube (x : R) : 0 < x -> Rpower (x ^ 3) (1 / 3) = x.
Proof.
  intros Hx. rewrite <- (Rpower_pow 3 x Hx), Rpower_mult.
  replace (INR 3 * (1 / 3)) with 1 by (simpl; lra).
  now apply Rpower_1.
Qed.

Lemma Rpower_third_bracket (lo hi c : R) :
  0 < lo -> 0 < hi -> lo ^ 3 < c <= hi ^ 3 ->
  lo < Rpower c (1 / 3) <= hi.
Proof.
  intros Hlo Hhi [Hl Hh].
  assert (0 < lo ^ 3) by (apply pow_lt; lra).
  split.
  - rewrite <- (Rpower_third_cube lo Hlo) at 1.
    apply Rlt_Rpower_l; lra.
  - rewrite <- (Rpower_third_cube hi Hhi) at 1.
    apply Rle_Rpower_l; lra.
Qed.

(* ================================================================== *)
(** ** The special values, on small inputs *)
(* ================================================================== *)

Example div_by_zero : (Fin 50 / Fin 0)%js = Infinity false.
Proof.
  unfold Number.div, Number.is_zero, Number.signbit.
  decide_reals. reflexivity.
Qed.

Example div_by_negative_zero : (Fin 50 / NegZero)%js = Infinity true.
Proof.
  unfold Number.div, Number.is_zero, Number.signbit.
  decide_reals. reflexivity.
Qed.

Example zero_by_zero : (Fin 0 / Fin 0)%js = NaN.
Proof. unfold Number.div, Number.is_zero. decide_reals. reflexivity. Qed.

Example infinity_times_zero : (Infinity false * Fin 0)%js = NaN.
Proof. unfold Number.mul, Number.is_zero. decide_reals. reflexivity. Qed.

Example round_half_up : Math.round (Fin 2.5) = Fin 3.
Proof. apply (round_Fin _ 3); [lia | lra]. Qed.

Example round_negative_half : Math.round (Fin (-2.5)) = Fin (-2).
Proof. apply (round_Fin _ (-2)); [lia | lra]. Qed.

Example round_small_negative : Math.round (Fin (-0.18)) = NegZero.
Proof.
  unfold Math.round, Math.floor_Z.
  assert (E : Int_part (-0.18 + / 2) = 0%Z).
  { symmetry. apply Int_part_spec. lra. }
  rewrite E. unfold Number.finite, Number.signbit, Number.zero.
  decide_reals. reflexivity.
Qed.

Example ceil_above_table : Math.ceil (Fin 20.3) = Fin 21.
Proof.
  unfold Math.ceil. rewrite (ceil_Z_spec 20.3 21) by lra.
  unfold Number.finite. decide_reals. reflexivity.
Qed.

Example cube_root_of_zero : Math.pow (Fin 0) (Fin 1 / Fin 3)%js = Fin 0.
Proof.
  rewrite div_Fin by lra. unfold Math.pow. decide_reals. reflexivity.
Qed.

Example cube_root_of_infinity :
  Math.pow (Infinity false) (Fin 1 / Fin 3)%js = Infinity false.
Proof.
  rewrite div_Fin by lra. unfold Math.pow. decide_reals. reflexivity.
Qed.

Example nothing_at_least_NaN : Number.ge (Fin 20) NaN = false.
Proof. reflexivity. Qed.

(* ================================================================== *)
(** ** The example scenario of the design document *)
(* ================================================================== *)

Module ScenarioFacts.
Import Scenario.
Local Open Scope js_scope.

Lemma lewis_18 : calculateLewisFactor (Fin 18) = Fin Y18.
Proof.
  unfold calculateLewisFactor, Y18.
  rewrite div_Fin, sub_Fin by lra. reflexivity.
Qed.

Lemma nominalRatio_req : nominalRatio req = Fin 10.
Proof.
  unfold nominalRatio, req; cbn [nominalInputRPM targetOutputRPM].
  rewrite div_Fin by lra. fin_eq.
Qed.

Lemma gearTeeth_req : gearTeeth req = Fin 180.
Proof.
  unfold gearTeeth, pinionTeeth. rewrite nominalRatio_req.
  rewrite mul_Fin by lra. apply (round_Fin _ 180); [lia | lra].
Qed.

Lemma actualRatio_req : actualRatio req = Fin 10.
Proof.
  unfold actualRatio, pinionTeeth. rewrite gearTeeth_req.
  rewrite div_Fin by lra. fin_eq.
Qed.

Lemma pinionTorque_req : pinionTorque req = Fin 5.
Proof.
  unfold pinionTorque. rewrite actualRatio_req.
  unfold req; cbn [targetOutputTorque].
  rewrite div_Fin by lra. fin_eq.
Qed.

Lemma allowableStress_req : allowableStress req = Fin (250 * 1000000 / 2).
Proof.
  unfold allowableStress, designSafetyFactor, req.
  cbn [materialYieldStrength].
  rewrite mul_Fin, div_Fin by lra. reflexivity.
Qed.

Lemma mCubed_req : mCubed req = Fin m3.
Proof.
  unfold mCubed, pinionTeeth; cbv zeta.
  rewrite pinionTorque_req, allowableStress_req, lewis_18.
  unfold m3, Y18.
  rewrite !mul_Fin by lra. rewrite div_Fin by lra. reflexivity.
Qed.

Lemma m3_bracket : (1 / 1000) ^ 3 < m3 <= (1.25 / 1000) ^ 3.
Proof. unfold m3, Y18. lra. Qed.

Lemma rawMm_bracket : 1 < rawMm <= 1.25.
Proof.
  pose proof (Rpower_third_bracket (1 / 1000) (1.25 / 1000) m3) as B.
  unfold rawMm. destruct B as [B1 B2]; try lra. exact m3_bracket.
Qed.

Lemma moduleMm_req : moduleMm req = Fin rawMm.
Proof.
  unfold moduleMm, moduleMeters. rewrite mCubed_req.
  pose proof m3_bracket as B.
  assert (0 < m3) by lra.
  rewrite pow_third_positive by assumption.
  pose proof rawMm_bracket as B'. unfold rawMm in *.
  rewrite mul_Fin by lra. reflexivity.
Qed.

Lemma selectedModule_req : selectedModule req = Fin 1.25.
Proof.
  unfold selectedModule. rewrite moduleMm_req.
  pose proof rawMm_bracket as B.
  unfold Array_find, standardModules, Number.ge, Number.le; simpl.
  decide_reals. unfold or_else, Number.truthy. decide_reals. reflexivity.
Qed.

End ScenarioFacts.

(* ================================================================== *)
(** ** The table of standard modules *)
(* ================================================================== *)

Lemma find_first_split (p : number -> bool) (l : list number) (m : number) :
  find p l = Some m ->
  exists before after : list number,
    l = before ++ m :: after /\ p m = true
    /\ Forall (fun y => p y = false) before.
Proof.
  induction l as [| y l IH]; simpl; [discriminate |].
  destruct (p y) eqn:Hy.
  - intros [= ->]. exists [], l. auto.
  - intros Hf. destruct (IH Hf) as (before & after & -> & Hm & Hb).
    exists (y :: before), after. auto.
Qed.

Lemma standardModules_truthy :
  Forall (fun m => Number.truthy m = true) standardModules.
Proof.
  unfold standardModules.
  repeat constructor; unfold Number.truthy; decide_reals; reflexivity.
Qed.

Lemma standardModules_found (raw : number) :
  Number.le raw (Fin 20) = true ->
  exists m : number,
    Array_find (fun m => Number.ge m raw) standardModules = Some m.
Proof.
  intros Hle. unfold Array_find.
  destruct (find _ standardModules) as [m |] eqn:Hf; [now exists m |].
  assert (Hin : In (Fin 20) standardModules) by (simpl; tauto).
  apply (find_none _ _ Hf) in Hin. unfold Number.ge in Hin. congruence.
Qed.

Lemma standardModules_exceeded (raw : number) :
  Number.gt raw (Fin 20) = true ->
  Array_find (fun m => Number.ge m raw) standardModules = None.
Proof.
  unfold Number.gt, Array_find, standardModules, Number.ge.
  destruct raw as [| [|] | | r]; simpl; try discriminate; try reflexivity.
  - destruct (Rlt_dec 20 0); [exfalso; lra | discriminate].
  - destruct (Rlt_dec 20 r); [| discriminate]. intros _.
    decide_reals. reflexivity.
Qed.

Lemma standardModules_NaN :
  Array_find (fun m => Number.ge m NaN) standardModules = None.
Proof. reflexivity. Qed.

(** A number is [NaN], at most 20, or greater than 20. *)
Lemma module_range (raw : number) :
  raw = NaN \/ Number.le raw (Fin 20) = true
  \/ Number.gt raw (Fin 20) = true.
Proof.
  destruct raw as [| [|] | | r]; simpl; auto.
  - right; left. unfold Number.le; simpl. decide_reals. reflexivity.
  - unfold Number.le, Number.gt, Number.lt; simpl.
    destruct (Rle_dec r 20); [tauto |].
    destruct (Rlt_dec 20 r); [tauto | exfalso; lra].
Qed.

Lemma ceil_above_20 (r : R) :
  20 < r ->
  Math.ceil (Fin r) = Fin (IZR (Math.ceil_Z r))
  /\ (20 < Math.ceil_Z r)%Z.
Proof.
  intros Hr. pose proof (ceil_Z_bounds r) as [_ Hc].
  assert (Hz : (20 < Math.ceil_Z r)%Z) by (apply lt_IZR; lra).
  split; [| exact Hz].
  unfold Math.ceil, Number.finite.
  destruct (Req_dec_T (IZR (Math.ceil_Z r)) 0) as [E | _]; [| reflexivity].
  apply eq_IZR_R0 in E. lia.
Qed.

Lemma selectedModule_NaN (req : DesignRequirements) :
  moduleMm req = NaN -> selectedModule req = NaN.
Proof.
  unfold selectedModule. intros ->. now rewrite standardModules_NaN.
Qed.

Lemma selectedModule_first (req : DesignRequirements) :
  Number.le (moduleMm req) (Fin 20) = true ->
  first_at_least standardModules (moduleMm req) (selectedModule req)
  /\ In (selectedModule req) standardModules.
Proof.
  intros Hle. unfold selectedModule.
  destruct (standardModules_found _ Hle) as [m Hm]. rewrite Hm.
  destruct (find_first_split _ _ _ Hm) as (before & after & Hl & Hge & Hb).
  assert (Hin : In m standardModules).
  { rewrite Hl. apply in_or_app. right. now left. }
  pose proof standardModules_truthy as T.
  rewrite Forall_forall in T. unfold or_else. rewrite (T m Hin).
  split; [| exact Hin]. now exists before, after.
Qed.

Lemma selectedModule_ceil (req : DesignRequirements) :
  Number.gt (moduleMm req) (Fin 20) = true ->
  selectedModule req = Math.ceil (moduleMm req).
Proof.
  intros Hgt. unfold selectedModule.
  now rewrite (standardModules_exceeded _ Hgt).
Qed.

(** The scenario with a reversed torque: the cube of the module is
    negative and [Math.pow] has no real cube root to return. *)
Module NegativeTorqueFacts.
Import Scenario Corner.
Local Open Scope js_scope.

Lemma third_not_integer : Math.is_integer (1 / 3) = false.
Proof.
  unfold Math.is_integer.
  assert (E : Int_part (1 / 3) = 0%Z).
  { symmetry. apply Int_part_spec. lra. }
  rewrite E. decide_reals. reflexivity.
Qed.

Lemma pinionTorque_negative : pinionTorque negativeTorque = Fin (-5).
Proof.
  unfold pinionTorque.
  change (actualRatio negativeTorque) with (actualRatio req).
  rewrite ScenarioFacts.actualRatio_req.
  unfold negativeTorque; cbn [targetOutputTorque].
  rewrite div_Fin by lra. fin_eq.
Qed.

Lemma mCubed_negative : mCubed negativeTorque = Fin (- m3).
Proof.
  unfold mCubed, pinionTeeth; cbv zeta.
  change (allowableStress negativeTorque) with (allowableStress req).
  rewrite pinionTorque_negative, ScenarioFacts.allowableStress_req,
    ScenarioFacts.lewis_18.
  unfold m3, Y18.
  rewrite !mul_Fin by lra. rewrite div_Fin by lra. fin_eq.
Qed.

Lemma moduleMm_negative : moduleMm negativeTorque = NaN.
Proof.
  unfold moduleMm, moduleMeters. rewrite mCubed_negative.
  pose proof ScenarioFacts.m3_bracket as B.
  rewrite div_Fin by lra. unfold Math.pow.
  rewrite third_not_integer. decide_reals. reflexivity.
Qed.

End NegativeTorqueFacts.

(** The heavy scenario: the raw module exceeds the table and is rounded up
    to a whole millimetre. *)
Module HeavyFacts.
Import Scenario Corner.
Local Open Scope js_scope.

Lemma pinionTorque_heavy : pinionTorque heavy = Fin 40000.
Proof.
  unfold pinionTorque.
  change (actualRatio heavy) with (actualRatio req).
  rewrite ScenarioFacts.actualRatio_req.
  unfold heavy; cbn [targetOutputTorque].
  rewrite div_Fin by lra. fin_eq.
Qed.

Lemma mCubed_heavy : mCubed heavy = Fin (8000 * m3).
Proof.
  unfold mCubed, pinionTeeth; cbv zeta.
  change (allowableStress heavy) with (allowableStress req).
  rewrite pinionTorque_heavy, ScenarioFacts.allowableStress_req,
    ScenarioFacts.lewis_18.
  unfold m3, Y18.
  rewrite !mul_Fin by lra. rewrite div_Fin by lra. fin_eq.
Qed.

Lemma heavy_bracket :
  ((22 / 1000) ^ 3 < 8000 * m3 <= (23 / 1000) ^ 3)%R.
Proof. unfold m3, Y18. lra. Qed.

Lemma moduleMm_heavy :
  exists r : R, moduleMm heavy = Fin r /\ (22 < r <= 23)%R.
Proof.
  exists (Rpower (8000 * m3) (1 / 3) * 1000)%R.
  pose proof heavy_bracket as B.
  pose proof (Rpower_third_bracket (22 / 1000) (23 / 1000) (8000 * m3)%R)
    as P.
  destruct P as [P1 P2]; try lra.
  split; [| lra].
  unfold moduleMm, moduleMeters. rewrite mCubed_heavy.
  assert ((0 < (22 / 1000) ^ 3)%R) by (apply pow_lt; lra).
  rewrite pow_third_positive by lra.
  rewrite mul_Fin by lra. reflexivity.
Qed.

Lemma selectedModule_heavy : selectedModule heavy = Fin 23.
Proof.
  destruct moduleMm_heavy as (r & E & Hr).
  rewrite selectedModule_ceil; rewrite E.
  - destruct (ceil_above_20 r) as [-> _]; [lra |].
    now rewrite (ceil_Z_spec r 23) by lra.
  - unfold Number.gt, Number.lt; simpl. decide_reals. reflexivity.
Qed.

End HeavyFacts.

(* ================================================================== *)
(** ** Module standardization *)
(* ================================================================== *)

(** C1, as stated, fails on the scenario with a reversed torque: the raw
    module is [NaN], so the selected module is no entry of the standard
    table, and the raw module does not exceed 20 either. *)
Lemma selectedModule_not_standard_on_negative_torque :
  ~ (first_at_least standardModules
       (moduleMm Corner.negativeTorque)
       (selectedModule Corner.negativeTorque)
     \/ (Number.gt (moduleMm Corner.negativeTorque) (Fin 20) = true
         /\ selectedModule Corner.negativeTorque
            = Math.ceil (moduleMm Corner.negativeTorque))).
Proof.
  rewrite (selectedModule_NaN _ NegativeTorqueFacts.moduleMm_negative).
  rewrite NegativeTorqueFacts.moduleMm_negative.
  intros [(before & after & _ & Hge & _) | [Hgt _]]; discriminate.
Qed.

(** C1 (amended): whenever the raw module computed from the Lewis equation
    is not [NaN], the selected module is the first entry of the standard
    table that is [>=] the raw module when the raw module is at most 20,
    and [Math.ceil] of the raw module when it exceeds 20: the ceiling
    integer of a finite raw module, [+Infinity] for an infinite one. *)
Theorem selectedModule_standardized (req : DesignRequirements) :
  moduleMm req <> NaN ->
  (Number.le (moduleMm req) (Fin 20) = true
   /\ first_at_least standardModules (moduleMm req) (selectedModule req)
   /\ In (selectedModule req) standardModules)
  \/ (Number.gt (moduleMm req) (Fin 20) = true
      /\ selectedModule req = Math.ceil (moduleMm req)
      /\ (forall r : R, moduleMm req = Fin r ->
            selectedModule req = Fin (IZR (Math.ceil_Z r))
            /\ IZR (Math.ceil_Z r) - 1 < r <= IZR (Math.ceil_Z r))
      /\ (moduleMm req = Infinity false ->
            selectedModule req = Infinity false)).
Proof.
  intros Hnan.
  destruct (module_range (moduleMm req)) as [E | [Hle | Hgt]];
    [contradiction | left | right].
  - split; [exact Hle | now apply selectedModule_first].
  - split; [exact Hgt |].
    rewrite (selectedModule_ceil _ Hgt).
    split; [reflexivity |]. split.
    + intros r E. rewrite E in Hgt |- *.
      unfold Number.gt, Number.lt in Hgt; simpl in Hgt.
      destruct (Rlt_dec 20 r) as [Hr | _]; [| discriminate].
      destruct (ceil_above_20 r Hr) as [Hc _].
      split; [exact Hc | apply ceil_Z_bounds].
    + now intros ->.
Qed.

(** The raw module of the example scenario is a number, and the theorem
    applies to it. *)
Lemma selectedModule_standardized_scenario :
  moduleMm Scenario.req <> NaN
  /\ ((Number.le (moduleMm Scenario.req) (Fin 20) = true
       /\ first_at_least standardModules (moduleMm Scenario.req)
            (selectedModule Scenario.req)
       /\ In (selectedModule Scenario.req) standardModules)
      \/ (Number.gt (moduleMm Scenario.req) (Fin 20) = true
          /\ selectedModule Scenario.req = Math.ceil (moduleMm Scenario.req)
          /\ (forall r : R, moduleMm Scenario.req = Fin r ->
                selectedModule Scenario.req = Fin (IZR (Math.ceil_Z r))
                /\ IZR (Math.ceil_Z r) - 1 < r <= IZR (Math.ceil_Z r))
          /\ (moduleMm Scenario.req = Infinity false ->
                selectedModule Scenario.req = Infinity false))).
Proof.
  assert (H : moduleMm Scenario.req <> NaN).
  { rewrite ScenarioFacts.moduleMm_req. discriminate. }
  split; [exact H | exact (selectedModule_standardized Scenario.req H)].
Defined.

(* ================================================================== *)
(** ** The example scenario, end to end *)
(* ================================================================== *)

Module ScenarioStep.
Import Scenario ScenarioFacts.
Local Open Scope js_scope.

Lemma pinion_design : pinion design =
  {| teeth := Fin 18; module := Fin 1.25; pressureAngle := Fin 20;
     faceWidth := Fin 12.5; rpm := Fin 1200; torque := Fin 5;
     diameter := Fin 22.5 |}.
Proof.
  unfold design, calculateGearDesign; cbn [pinion]. unfold pinionParams.
  rewrite selectedModule_req, pinionTorque_req. unfold pinionTeeth.
  rewrite !mul_Fin by lra. unfold req; cbn [nominalInputRPM].
  f_equal; fin_eq.
Qed.

Lemma gear_design : gear design =
  {| teeth := Fin 180; module := Fin 1.25; pressureAngle := Fin 20;
     faceWidth := Fin 12.5; rpm := Fin 120; torque := Fin 50;
     diameter := Fin 225 |}.
Proof.
  unfold design, calculateGearDesign; cbn [gear]. unfold gearParams.
  rewrite selectedModule_req, gearTeeth_req, actualRatio_req.
  unfold req; cbn [nominalInputRPM targetOutputTorque].
  rewrite !mul_Fin, div_Fin by lra.
  f_equal; fin_eq.
Qed.

Lemma ratio_design : ratio design = Fin 10.
Proof. exact actualRatio_req. Qed.

Lemma centerDistance_design : centerDistance design = Fin 123.75.
Proof.
  change (centerDistance design)
    with ((diameter (pinion design) + diameter (gear design)) / Fin 2).
  rewrite pinion_design, gear_design; cbn [diameter].
  rewrite add_Fin, div_Fin by lra. fin_eq.
Qed.

Lemma lewisStress_design : lewisStress design = Fin sigma.
Proof.
  unfold lewisStress. rewrite pinion_design, gear_design, ratio_design.
  cbn [teeth module faceWidth torque diameter].
  rewrite lewis_18. unfold sigma, Y18.
  repeat (rewrite ?mul_Fin, ?div_Fin by lra). fin_eq.
Qed.

Lemma sigma_value : 87.6 < sigma < 87.7.
Proof. unfold sigma, Y18. lra. Qed.

End ScenarioStep.

(* ================================================================== *)
(** ** One step of the simulation *)
(* ================================================================== *)

Lemma mul_comm (x y : number) : (x * y)%js = (y * x)%js.
Proof.
  destruct x as [| sx | | a], y as [| sy | | b];
    cbn [Number.mul Number.is_zero]; try reflexivity;
    first
      [ f_equal; apply xorb_comm
      | rewrite xorb_comm; reflexivity
      | f_equal; [apply xorb_comm | apply Rmult_comm]
      | rewrite xorb_comm, Rmult_comm; reflexivity ].
Qed.

(** The point returned by [simulateStep], field by field. *)
Lemma simulateStep_point (t : number) (d : DesignResult)
    (req : DesignRequirements) (g : RandomSource) :
  fst (simulateStep t d req g) =
  {| time := t;
     inputTorque := (torque (gear d) / ratio d)%js;
     outputTorque := torque (gear d);
     inputRPM := (rpm (pinion d) * fst (inputFactor t req g))%js;
     outputRPM := (rpm (pinion d) * fst (inputFactor t req g) / ratio d)%js;
     stress := lewisStress d |}.
Proof.
  unfold simulateStep. now destruct (inputFactor t req g).
Qed.

Lemma simulateStep_source (t : number) (d : DesignResult)
    (req : DesignRequirements) (g : RandomSource) :
  snd (simulateStep t d req g) = snd (inputFactor t req g).
Proof.
  unfold simulateStep. now destruct (inputFactor t req g).
Qed.

(** C2: on the example scenario the solver returns an 18-tooth pinion, a
    180-tooth gear, the ratio 10 and a pinion torque of 5 Nm; the module is
    the Lewis result (the cube root of [m3], in millimetres) snapped to the
    standard table, which is 1.25 mm.  The step at time 0 on this design
    returns the torques 50 and 5, the speeds 1200 and 120, and the Lewis
    stress formula evaluated on those inputs (between 87.6 and 87.7 MPa). *)
Theorem scenario_regression :
  teeth (pinion Scenario.design) = Fin 18
  /\ teeth (gear Scenario.design) = Fin 180
  /\ ratio Scenario.design = Fin 10
  /\ torque (pinion Scenario.design) = Fin 5
  /\ moduleMm Scenario.req = Fin (Rpower Scenario.m3 (1 / 3) * 1000)
  /\ first_at_least standardModules (moduleMm Scenario.req)
       (module (pinion Scenario.design))
  /\ module (pinion Scenario.design) = Fin 1.25
  /\ module (gear Scenario.design) = Fin 1.25
  /\ (forall g : RandomSource,
        fst (simulateStep (Fin 0) Scenario.design Scenario.req g) =
        {| time := Fin 0;
           inputTorque := Fin 5;
           outputTorque := Fin 50;
           inputRPM := Fin 1200;
           outputRPM := Fin 120;
           stress := Fin Scenario.sigma |})
  /\ lewisStress Scenario.design = Fin Scenario.sigma
  /\ 87.6 < Scenario.sigma < 87.7.
Proof.
  pose proof ScenarioStep.pinion_design as P.
  pose proof ScenarioStep.gear_design as G.
  pose proof ScenarioStep.ratio_design as Q.
  rewrite P, G, Q; cbn [teeth torque module].
  repeat split; try reflexivity.
  - exact ScenarioFacts.moduleMm_req.
  - rewrite <- ScenarioFacts.selectedModule_req.
    apply selectedModule_first. rewrite ScenarioFacts.moduleMm_req.
    pose proof ScenarioFacts.rawMm_bracket.
    unfold Number.le; simpl. decide_reals. reflexivity.
  - intros g. rewrite simulateStep_point.
    rewrite ScenarioStep.lewisStress_design, P, G, Q; cbn [rpm torque].
    unfold inputFactor, Scenario.req; cbn [inputVariability fst].
    rewrite mul_Fin by lra. rewrite !div_Fin by lra.
    f_equal; fin_eq.
  - exact ScenarioStep.lewisStress_design.
  - apply ScenarioStep.sigma_value.
  - apply ScenarioStep.sigma_value.
Qed.

(* ================================================================== *)
(** ** Well-formedness of the design *)
(* ================================================================== *)


Lemma strict_eq_refl (x : number) :
  x <> NaN -> Number.strict_eq x x = true.
Proof.
  destruct x as [| s | | r]; intros H; try contradiction; simpl.
  - now destruct s.
  - decide_reals. reflexivity.
  - unfold Number.strict_eq. decide_reals. reflexivity.
Qed.

(** Read with the [===] of the language, the dimensional invariants hold
    on every field that is not [NaN]. *)
Lemma design_dimensions_strict (req : DesignRequirements) (g : GearParams) :
  g = pinion (calculateGearDesign req) \/ g = gear (calculateGearDesign req) ->
  (diameter g <> NaN ->
   Number.strict_eq (diameter g) (teeth g * module g)%js = true)
  /\ (faceWidth g <> NaN ->
      Number.strict_eq (faceWidth g) (Fin 10 * module g)%js = true).
Proof.
  intros [-> | ->];
    cbn [calculateGearDesign pinion gear pinionParams gearParams
         diameter teeth module faceWidth];
    rewrite (mul_comm (Fin 10)); split; apply strict_eq_refl.
Qed.

(** C6: the reported safety factor is the constant 2 of the design stage,
    the one that divides the yield strength in the module calculation,
    whatever the requirements.  It is not recomputed from the realized
    module: the example scenario and the heavy one realize different
    modules and report the same factor, and on the example scenario the
    yield strength is about 2.85 times the stress of the realized design. *)
Theorem safetyFactor_constant :
  (forall req : DesignRequirements,
     safetyFactor (calculateGearDesign req) = Fin 2
     /\ allowableStress req
        = (materialYieldStrength req * Fin 1000000
           / safetyFactor (calculateGearDesign req))%js)
  /\ module (pinion (calculateGearDesign Scenario.req)) = Fin 1.25
  /\ module (pinion (calculateGearDesign Corner.heavy)) = Fin 23
  /\ (materialYieldStrength Scenario.req / lewisStress Scenario.design)%js
     = Fin (250 / Scenario.sigma)
  /\ 2.8 < 250 / Scenario.sigma < 2.9.
Proof.
  split; [intros req; split; reflexivity |].
  split; [exact ScenarioFacts.selectedModule_req |].
  split; [exact HeavyFacts.selectedModule_heavy |].
  pose proof ScenarioStep.sigma_value as S.
  split.
  - rewrite ScenarioStep.lewisStress_design.
    unfold Scenario.req; cbn [materialYieldStrength].
    now rewrite div_Fin by lra.
  - unfold Scenario.sigma, Scenario.Y18. lra.
Qed.

(* ================================================================== *)
(** ** The load model and the stress of a step *)
(* ================================================================== *)

(** C5: at every time, in every mode and for every state of the random
    generator, the step reports the torque of the gear as output torque
    and that torque divided by the ratio as input torque; a design that
    differs only in the speed of its pinion reports the same torques. *)
Theorem step_torques (t : number) (d : DesignResult)
    (req : DesignRequirements) (g : RandomSource) :
  outputTorque (fst (simulateStep t d req g)) = torque (gear d)
  /\ inputTorque (fst (simulateStep t d req g))
     = (torque (gear d) / ratio d)%js
  /\ forall (r t' : number) (req' : DesignRequirements) (g' : RandomSource),
       outputTorque (fst (simulateStep t' (with_pinion_rpm r d) req' g'))
       = outputTorque (fst (simulateStep t d req g))
       /\ inputTorque (fst (simulateStep t' (with_pinion_rpm r d) req' g'))
          = inputTorque (fst (simulateStep t d req g)).
Proof.
  rewrite simulateStep_point; cbn [outputTorque inputTorque].
  repeat split; rewrite simulateStep_point; reflexivity.
Qed.

(** C10: for a fixed design the stress of a step is the Lewis stress of
    the design, the same at every time, in every mode and for every state
    of the random generator; it is computed from the torque of the gear,
    the ratio and the geometry of the pinion, and not from its speed. *)
Theorem step_stress_invariant (d : DesignResult)
    (t1 t2 : number) (req1 req2 : DesignRequirements)
    (g1 g2 : RandomSource) :
  stress (fst (simulateStep t1 d req1 g1))
  = stress (fst (simulateStep t2 d req2 g2))
  /\ stress (fst (simulateStep t1 d req1 g1)) = lewisStress d
  /\ forall r : number,
       stress (fst (simulateStep t1 (with_pinion_rpm r d) req1 g1))
       = lewisStress d.
Proof.
  repeat split; try intros r; rewrite !simulateStep_point; reflexivity.
Qed.

(** C7: under constant forcing two steps on the same design differ in
    their [time] field only, and no random draw is consumed. *)
Theorem step_constant_time_invariant (d : DesignResult)
    (req : DesignRequirements) (t1 t2 : number) (g1 g2 : RandomSource) :
  inputVariability req = constant ->
  let p1 := fst (simulateStep t1 d req g1) in
  let p2 := fst (simulateStep t2 d req g2) in
  inputRPM p1 = inputRPM p2
  /\ outputRPM p1 = outputRPM p2
  /\ inputTorque p1 = inputTorque p2
  /\ outputTorque p1 = outputTorque p2
  /\ stress p1 = stress p2
  /\ time p1 = t1 /\ time p2 = t2
  /\ p2 = with_time t2 p1
  /\ snd (simulateStep t1 d req g1) = g1.
Proof.
  intros Hc p1 p2. subst p1 p2.
  rewrite simulateStep_source, !simulateStep_point.
  unfold inputFactor. rewrite Hc. cbn. repeat split.
Qed.

(** The example scenario runs under constant forcing. *)
Lemma step_constant_time_invariant_scenario :
  inputVariability Scenario.req = constant
  /\ inputRPM (fst (simulateStep (Fin 0) Scenario.design Scenario.req
                      Scenario.quarter))
     = inputRPM (fst (simulateStep (Fin 1) Scenario.design Scenario.req
                        Scenario.quarter)).
Proof.
  split; [reflexivity |].
  exact (proj1 (step_constant_time_invariant Scenario.design Scenario.req
                  (Fin 0) (Fin 1) Scenario.quarter Scenario.quarter
                  eq_refl)).
Defined.

(* ================================================================== *)
(** ** The tooth count of the gear *)
(* ================================================================== *)

Lemma finite_value (s : bool) (r : R) :
  Number.value (Number.finite s r) = Some r.
Proof.
  unfold Number.finite, Number.zero.
  destruct (Req_dec_T r 0) as [-> | _]; [now destruct s | reflexivity].
Qed.



Lemma half_turn_threshold (n t : R) :
  t <> 0 -> 0 < n -> (1 / 2 <= 18 * (n / t) <-> 0 < t <= 36 * n).
Proof.
  intros Ht Hn.
  assert (E : n = n / t * t) by (field; exact Ht).
  destruct (Rlt_dec 0 t) as [Hp | Hnp].
  - split; intros H; [split; [exact Hp |] |]; nra.
  - assert (Hneg : t < 0) by lra.
    assert (Hq : n / t < 0).
    { unfold Rdiv. apply Rinv_lt_0_compat in Hneg. nra. }
    split; intros Hx; lra.
Qed.

Lemma gearTeeth_finite (req : DesignRequirements) (n t : R) :
  nominalInputRPM req = Fin n -> targetOutputRPM req = Fin t ->
  t <> 0 -> 0 < n ->
  gearTeeth req = Math.round (Fin (18 * (n / t))).
Proof.
  intros En Et Ht Hn. unfold gearTeeth, nominalRatio, pinionTeeth.
  rewrite En, Et. rewrite div_Fin by lra.
  rewrite mul_Fin; [reflexivity | lra |].
  unfold Rdiv. apply Rmult_integral_contrapositive.
  split; [lra | now apply Rinv_neq_0_compat].
Qed.

(** The step-up stage: the tooth count rounds to zero, the realized ratio
    is zero, and the torque on the pinion, the raw module and the selected
    module are all infinite. *)
Module StepUpFacts.
Import Corner.
Local Open Scope js_scope.

Lemma gearTeeth_stepUp : gearTeeth stepUp = Fin 0.
Proof.
  rewrite (gearTeeth_finite _ 1 100) by (reflexivity || lra).
  unfold Math.round, Math.floor_Z.
  assert (Ez : Int_part (18 * (1 / 100) + / 2) = 0%Z).
  { symmetry. apply Int_part_spec. lra. }
  rewrite Ez. unfold Number.finite, Number.signbit, Number.zero.
  decide_reals. reflexivity.
Qed.

Lemma actualRatio_stepUp : actualRatio stepUp = Fin 0.
Proof.
  unfold actualRatio, pinionTeeth. rewrite gearTeeth_stepUp.
  unfold Number.div, Number.is_zero, Number.finite, Number.signbit.
  cbn [Number.real_part]. decide_reals. reflexivity.
Qed.

Lemma pinionTorque_stepUp : pinionTorque stepUp = Infinity false.
Proof.
  unfold pinionTorque. rewrite actualRatio_stepUp.
  unfold stepUp; cbn [targetOutputTorque].
  unfold Number.div, Number.is_zero, Number.signbit.
  decide_reals. reflexivity.
Qed.

Lemma moduleMm_stepUp : moduleMm stepUp = Infinity false.
Proof.
  unfold moduleMm, moduleMeters, mCubed, pinionTeeth; cbv zeta.
  change (allowableStress stepUp) with (allowableStress Scenario.req).
  rewrite pinionTorque_stepUp, ScenarioFacts.allowableStress_req,
    ScenarioFacts.lewis_18.
  unfold Scenario.Y18. rewrite !mul_Fin, div_Fin by lra.
  unfold Number.mul, Number.div, Number.is_zero, Number.signbit, Math.pow.
  decide_reals. reflexivity.
Qed.

Lemma selectedModule_stepUp : selectedModule stepUp = Infinity false.
Proof. unfold selectedModule. rewrite moduleMm_stepUp. reflexivity. Qed.

End StepUpFacts.


(** With the output shaft turning backwards the tooth count is negative. *)
Lemma gear_teeth_negative_on_reversed :
  teeth (gear (calculateGearDesign Corner.reversed)) = Fin (-180).
Proof.
  cbn [calculateGearDesign gear gearParams teeth].
  rewrite (gearTeeth_finite _ 1200 (-120)) by (reflexivity || lra).
  apply (round_Fin _ (-180)); [lia | lra].
Qed.



(* ================================================================== *)
(** ** The forcing of the input speed *)
(* ================================================================== *)

Lemma mul_Fin_r_pos (a b : R) : 0 < b -> (Fin a * Fin b)%js = Fin (a * b).
Proof.
  intros Hb. unfold Number.mul, Number.finite, Number.zero, Number.signbit.
  cbn [Number.real_part].
  destruct (Req_dec_T (a * b) 0) as [E | _]; [| reflexivity].
  assert (a = 0) by nra. subst a.
  decide_reals. cbn. f_equal. lra.
Qed.

Lemma mul_finite_value (x : number) (f : R) :
  Number.is_finite x = true ->
  Number.value (x * Fin f)%js = Some (Number.real_part x * f).
Proof.
  destruct x as [| s | | r]; try discriminate; intros _.
  - unfold Number.mul. apply finite_value.
  - apply mul_Fin_value.
Qed.

Lemma finite_value_real_part (x : number) :
  Number.is_finite x = true -> Number.value x = Some (Number.real_part x).
Proof. destruct x; try discriminate; reflexivity. Qed.

(** A finite speed scaled by a factor within [e] of one stays within the
    fraction [e] of itself. *)
Lemma scaled_within_fraction (e f : R) (x : number) :
  Number.is_finite x = true -> Rabs (f - 1) <= e ->
  within_fraction e x (x * Fin f)%js.
Proof.
  intros Hx Hf. exists (Number.real_part x), (Number.real_part x * f).
  split; [now apply finite_value_real_part |].
  split; [now apply mul_finite_value |].
  replace (Number.real_part x * f - Number.real_part x)
    with (Number.real_part x * (f - 1)) by ring.
  rewrite Rabs_mult, (Rmult_comm e).
  apply Rmult_le_compat_l; [apply Rabs_pos | exact Hf].
Qed.

(** The factor of the ['sine'] mode at a finite time. *)
Lemma sine_factor_Fin (t : R) :
  (Fin 1 + Fin 0.3 * Math.sin (Fin t * Fin 2))%js
  = Fin (1 + sin (t * 2) * 0.3).
Proof.
  rewrite mul_Fin_r_pos by lra. cbn [Math.sin].
  rewrite (mul_comm (Fin 0.3)), mul_Fin_r_pos by lra. reflexivity.
Qed.

Lemma sine_factor_NegZero :
  (Fin 1 + Fin 0.3 * Math.sin (NegZero * Fin 2))%js = Fin (1 + 0).
Proof.
  assert (E : (NegZero * Fin 2)%js = NegZero).
  { unfold Number.mul, Number.finite; cbn. decide_reals. reflexivity. }
  rewrite E. cbn [Math.sin].
  assert (E' : (Fin 0.3 * NegZero)%js = NegZero).
  { unfold Number.mul, Number.finite; cbn. decide_reals. reflexivity. }
  rewrite E'. reflexivity.
Qed.

Lemma sin_double_period (t : R) : sin ((t + PI) * 2) = sin (t * 2).
Proof.
  replace ((t + PI) * 2) with (t * 2 + 2 * INR 1 * PI) by (simpl; ring).
  apply sin_period.
Qed.

Lemma sine_factor_periodic (t : number) :
  (Fin 1 + Fin 0.3 * Math.sin ((t + Fin PI) * Fin 2))%js
  = (Fin 1 + Fin 0.3 * Math.sin (t * Fin 2))%js.
Proof.
  destruct t as [| s | | r].
  - reflexivity.
  - reflexivity.
  - rewrite sine_factor_NegZero.
    change (NegZero + Fin PI)%js with (Fin (0 + PI)).
    rewrite sine_factor_Fin, sin_double_period, Rmult_0_l, sin_0.
    f_equal. ring.
  - rewrite add_Fin, !sine_factor_Fin, sin_double_period. reflexivity.
Qed.

Lemma sine_factor_bounded (t : number) :
  Number.is_finite t = true ->
  exists f : R,
    (Fin 1 + Fin 0.3 * Math.sin (t * Fin 2))%js = Fin f
    /\ 0.7 <= f <= 1.3.
Proof.
  destruct t as [| s | | r]; try discriminate; intros _.
  - exists (1 + 0). split; [apply sine_factor_NegZero | lra].
  - exists (1 + sin (r * 2) * 0.3). split; [apply sine_factor_Fin |].
    pose proof (SIN_bound (r * 2)) as [Hl Hu]. lra.
Qed.

(** The factor of the ['noise'] mode for a draw [u]. *)
Lemma noise_factor_Fin (u : R) :
  (Fin 1 + (Fin u - Fin 0.5) * Fin 0.4)%js = Fin (1 + (u - 0.5) * 0.4).
Proof. rewrite sub_Fin, mul_Fin_r_pos by lra. reflexivity. Qed.

(** C8: in the ['sine'] mode the input speed of a step is the speed of
    the pinion times [1 + 0.3 * sin(2 * time)]; shifting the time by [PI]
    leaves it unchanged; at a finite time it is the speed of the pinion
    scaled by a factor between 0.7 and 1.3, hence within 30% of a finite
    pinion speed.  No random draw is consumed. *)
Theorem step_sine_forcing (d : DesignResult) (req : DesignRequirements)
    (g : RandomSource) (t : number) :
  inputVariability req = sine ->
  inputRPM (fst (simulateStep t d req g))
  = (rpm (pinion d) * (Fin 1 + Fin 0.3 * Math.sin (Fin 2 * t)))%js
  /\ inputRPM (fst (simulateStep (t + Fin PI)%js d req g))
     = inputRPM (fst (simulateStep t d req g))
  /\ (Number.is_finite t = true ->
      (exists f : R,
         0.7 <= f <= 1.3
         /\ inputRPM (fst (simulateStep t d req g))
            = (rpm (pinion d) * Fin f)%js)
      /\ (Number.is_finite (rpm (pinion d)) = true ->
          within_fraction 0.3 (rpm (pinion d))
            (inputRPM (fst (simulateStep t d req g)))))
  /\ snd (simulateStep t d req g) = g.
Proof.
  intros Hs. rewrite simulateStep_source, !simulateStep_point.
  unfold inputFactor. rewrite Hs. cbn [inputRPM fst snd].
  split; [now rewrite (mul_comm (Fin 2)) |].
  split; [now rewrite sine_factor_periodic |].
  split; [| reflexivity].
  intros Ht. destruct (sine_factor_bounded t Ht) as (f & -> & Hf).
  split; [now exists f |].
  intros Hr. apply scaled_within_fraction; [exact Hr |].
  apply Rabs_le. lra.
Qed.

(** The rippled scenario at time [1]. *)
Lemma step_sine_forcing_scenario :
  inputVariability Scenario.rippled = sine
  /\ Number.is_finite (Fin 1) = true
  /\ Number.is_finite (rpm (pinion Scenario.design)) = true
  /\ within_fraction 0.3 (rpm (pinion Scenario.design))
       (inputRPM (fst (simulateStep (Fin 1) Scenario.design
                         Scenario.rippled Scenario.quarter))).
Proof.
  assert (Hr : Number.is_finite (rpm (pinion Scenario.design)) = true)
    by reflexivity.
  repeat split; try reflexivity.
  exact (proj2 (proj1 (proj2 (proj2
    (step_sine_forcing Scenario.design Scenario.rippled Scenario.quarter
       (Fin 1) eq_refl))) eq_refl) Hr).
Defined.

(** C9: in the ['noise'] mode, for a draw [U] of the generator in
    [[0, 1)], the input speed of a step is the speed of the pinion times
    [1 + (U - 0.5) * 0.4], a factor between 0.8 and 1.2; hence it stays
    within 20% of a finite pinion speed.  The step consumes exactly that
    draw. *)
Theorem step_noise_forcing (d : DesignResult) (req : DesignRequirements)
    (g : RandomSource) (t : number) :
  inputVariability req = noise ->
  0 <= draws g (consumed g) < 1 ->
  inputRPM (fst (simulateStep t d req g))
  = (rpm (pinion d)
     * (Fin 1 + (Fin (draws g (consumed g)) - Fin 0.5) * Fin 0.4))%js
  /\ (exists f : R,
        0.8 <= f < 1.2
        /\ inputRPM (fst (simulateStep t d req g))
           = (rpm (pinion d) * Fin f)%js)
  /\ (Number.is_finite (rpm (pinion d)) = true ->
      within_fraction 0.2 (rpm (pinion d))
        (inputRPM (fst (simulateStep t d req g))))
  /\ consumed (snd (simulateStep t d req g)) = S (consumed g).
Proof.
  intros Hn HU. rewrite simulateStep_source, !simulateStep_point.
  unfold inputFactor. rewrite Hn.
  cbn [Math_random inputRPM fst snd consumed].
  split; [reflexivity |]. rewrite noise_factor_Fin.
  split; [eexists; split; [| reflexivity]; lra |].
  split; [| reflexivity].
  intros Hr. apply scaled_within_fraction; [exact Hr |].
  apply Rabs_le. lra.
Qed.

(** The noisy scenario with a draw of [0.25]. *)
Lemma step_noise_forcing_scenario :
  inputVariability Scenario.noisy = noise
  /\ 0 <= draws Scenario.quarter (consumed Scenario.quarter) < 1
  /\ Number.is_finite (rpm (pinion Scenario.design)) = true
  /\ within_fraction 0.2 (rpm (pinion Scenario.design))
       (inputRPM (fst (simulateStep (Fin 0) Scenario.design
                         Scenario.noisy Scenario.quarter))).
Proof.
  assert (HU : 0 <= draws Scenario.quarter (consumed Scenario.quarter) < 1)
    by (cbn; lra).
  assert (Hr : Number.is_finite (rpm (pinion Scenario.design)) = true)
    by reflexivity.
  repeat split; try reflexivity; try apply HU.
  exact (proj1 (proj2 (proj2
    (step_noise_forcing Scenario.design Scenario.noisy Scenario.quarter
       (Fin 0) eq_refl HU))) Hr).
Defined.

(** A generator whose draws all lie in [[0, 1)] stays so after a step, so
    the bound of the ['noise'] mode holds on every later call as well. *)
Lemma simulateStep_uniform (t : number) (d : DesignResult)
    (req : DesignRequirements) (g : RandomSource) :
  uniform_source g -> uniform_source (snd (simulateStep t d req g)).
Proof.
  intros Hg. rewrite simulateStep_source. unfold inputFactor.
  destruct (inputVariability req); exact Hg.
Qed.

Lemma uniform_next_draw (g : RandomSource) :
  uniform_source g -> 0 <= draws g (consumed g) < 1.
Proof. intros Hg. apply Hg. Qed.

(* ================================================================== *)
(** ** The algebra of finite values *)
(* ================================================================== *)

Section ValueAlgebra.
Local Open Scope js_scope.
Variables (x y : number) (a b : R).
Hypothesis Hx : has_value x a.
Hypothesis Hy : has_value y b.

Lemma has_value_finite : Number.is_finite x = true.
Proof. destruct x; try discriminate; reflexivity. Qed.

Lemma has_value_real_part : Number.real_part x = a.
Proof.
  destruct x; try discriminate; unfold has_value in Hx; simpl in *;
    congruence.
Qed.

Lemma has_value_add : has_value (x + y) (a + b).
Proof.
  unfold has_value in *.
  destruct x, y; try discriminate; simpl in *;
    injection Hx as <-; injection Hy as <-; f_equal; lra.
Qed.

Lemma has_value_neg : has_value (Number.neg y) (- b).
Proof.
  unfold has_value in *. destruct y; try discriminate; simpl in *.
  - injection Hy as <-. f_equal. lra.
  - injection Hy as <-. destruct (Req_dec_T r 0) as [-> | _]; simpl;
      f_equal; lra.
Qed.

Lemma has_value_mul : has_value (x * y) (a * b).
Proof.
  rewrite <- has_value_real_part.
  assert (Eb : Number.real_part y = b).
  { destruct y; try discriminate; unfold has_value in Hy; simpl in *;
      congruence. }
  rewrite <- Eb. unfold has_value.
  destruct x, y; try discriminate; unfold Number.mul; apply finite_value.
Qed.

Lemma has_value_div : b <> 0 -> has_value (x / y) (a / b).
Proof.
  intros Hb. rewrite <- has_value_real_part.
  assert (Eb : Number.real_part y = b).
  { destruct y; try discriminate; unfold has_value in Hy; simpl in *;
      congruence. }
  rewrite <- Eb. unfold has_value.
  assert (Hz : Number.is_zero y = false).
  { destruct y; try discriminate; simpl in *.
    - exfalso. apply Hb. unfold has_value in Hy. simpl in Hy. congruence.
    - destruct (Req_dec_T r 0); [congruence | reflexivity]. }
  destruct x, y; try discriminate; unfold Number.div; rewrite Hz;
    apply finite_value.
Qed.

Lemma has_value_le : Number.le x y = true <-> a <= b.
Proof.
  rewrite <- has_value_real_part.
  assert (Eb : Number.real_part y = b).
  { destruct y; try discriminate; unfold has_value in Hy; simpl in *;
      congruence. }
  rewrite <- Eb.
  destruct x, y; try discriminate; unfold Number.le;
    match goal with |- context [Rle_dec ?u ?v] => destruct (Rle_dec u v) end;
    split; intros; try assumption; try reflexivity; try discriminate;
    contradiction.
Qed.

Lemma has_value_lt : Number.lt x y = true <-> a < b.
Proof.
  rewrite <- has_value_real_part.
  assert (Eb : Number.real_part y = b).
  { destruct y; try discriminate; unfold has_value in Hy; simpl in *;
      congruence. }
  rewrite <- Eb.
  destruct x, y; try discriminate; unfold Number.lt;
    match goal with |- context [Rlt_dec ?u ?v] => destruct (Rlt_dec u v) end;
    split; intros; try assumption; try reflexivity; try discriminate;
    contradiction.
Qed.

End ValueAlgebra.

Lemma has_value_Fin (r : R) : has_value (Fin r) r.
Proof. reflexivity. Qed.

Lemma has_value_sub (x y : number) (a b : R) :
  has_value x a -> has_value y b -> has_value (x - y)%js (a - b).
Proof.
  intros Hx Hy. unfold Number.sub, Rminus.
  apply has_value_add; [exact Hx | now apply has_value_neg].
Qed.

Lemma has_value_sin (x : number) (a : R) :
  has_value x a -> has_value (Math.sin x) (sin a).
Proof.
  unfold has_value. destruct x; try discriminate; simpl; intros [= <-].
  - f_equal. symmetry. apply sin_0.
  - reflexivity.
Qed.

Lemma has_value_cos (x : number) (a : R) :
  has_value x a -> has_value (Math.cos x) (cos a).
Proof.
  unfold has_value. destruct x; try discriminate; simpl; intros [= <-].
  - f_equal. symmetry. apply cos_0.
  - reflexivity.
Qed.

Lemma has_value_eq (x : number) (a b : R) :
  has_value x a -> a = b -> has_value x b.
Proof. now intros H <-. Qed.

Lemma has_value_inj (x : number) (a b : R) :
  has_value x a -> has_value x b -> a = b.
Proof. unfold has_value. congruence. Qed.

(** Find the value of an arithmetic expression from the values of its
    leaves; the divisors are left to be shown non-zero. *)
Ltac value_of :=
  lazymatch goal with
  | |- has_value (Fin _) _ => apply has_value_Fin
  | |- has_value (Number.add _ _) _ => eapply has_value_add; value_of
  | |- has_value (Number.sub _ _) _ => eapply has_value_sub; value_of
  | |- has_value (Number.mul _ _) _ => eapply has_value_mul; value_of
  | |- has_value (Number.div _ _) _ =>
      eapply has_value_div; [value_of | value_of |]
  | |- has_value (Math.cos _) _ => eapply has_value_cos; value_of
  | |- has_value (Math.sin _) _ => eapply has_value_sin; value_of
  | |- has_value (Number.neg _) _ => eapply has_value_neg; value_of
  | |- _ => eassumption
  end.


(* ================================================================== *)
(** ** The realized module and the strength of the design *)
(* ================================================================== *)

Lemma standardModules_values (m : number) :
  In m standardModules -> exists v : R, m = Fin v /\ 0.5 <= v <= 20.
Proof.
  unfold standardModules. simpl.
  intros H.
  repeat (destruct H as [<- | H]; [eexists; split; [reflexivity | lra] |]).
  contradiction.
Qed.

Lemma cube_root_cube (c : R) : 0 <= c -> cube_root c ^ 3 = c.
Proof.
  intros Hc. unfold cube_root.
  destruct (Req_dec_T c 0) as [-> | Hn]; [simpl; ring |].
  assert (Hp : 0 < c) by lra.
  assert (Hr : 0 < Rpower c (1 / 3)) by apply exp_pos.
  rewrite <- (Rpower_pow 3 _ Hr), Rpower_mult.
  replace (1 / 3 * INR 3) with 1 by (simpl; lra).
  now apply Rpower_1.
Qed.

Lemma cube_root_nonneg (c : R) : 0 <= cube_root c.
Proof.
  unfold cube_root. destruct (Req_dec_T c 0); [lra |].
  left. apply exp_pos.
Qed.

Lemma pow_third_value (x : number) (c : R) :
  has_value x c -> 0 <= c ->
  has_value (Math.pow x (Fin 1 / Fin 3)%js) (cube_root c).
Proof.
  intros Hx Hc. rewrite div_Fin by lra. unfold cube_root, has_value in *.
  destruct x as [| s | | r]; try discriminate; simpl in Hx;
    injection Hx as <-; unfold Math.pow.
  - decide_reals. now destruct (Math.is_odd_integer (1 / 3)).
  - decide_reals; reflexivity.
Qed.

(** The selected module of a finite raw module is finite, not below the
    raw module and not below the smallest standard module. *)
Lemma selectedModule_value (req : DesignRequirements) (raw : R) :
  has_value (moduleMm req) raw ->
  exists mm : R,
    selectedModule req = Fin mm /\ raw <= mm /\ 0.5 <= mm.
Proof.
  intros Hraw.
  destruct (module_range (moduleMm req)) as [E | [Hle | Hgt]].
  - rewrite E in Hraw. discriminate.
  - destruct (selectedModule_first req Hle)
      as [(before & after & _ & Hge & _) Hin].
    destruct (standardModules_values _ Hin) as (v & Ev & Hv).
    exists v. split; [exact Ev |]. split; [| lra].
    rewrite Ev in Hge. unfold Number.ge in Hge.
    now apply (has_value_le _ _ _ _ Hraw (has_value_Fin v)).
  - rewrite (selectedModule_ceil req Hgt).
    unfold Number.gt in Hgt.
    apply (has_value_lt _ _ _ _ (has_value_Fin 20) Hraw) in Hgt.
    destruct (moduleMm req) as [| s | | r]; try discriminate;
      unfold has_value in Hraw; simpl in Hraw; injection Hraw as <-;
      [lra |].
    destruct (ceil_above_20 r Hgt) as [Ec Hz].
    pose proof (ceil_Z_bounds r) as [_ Hb].
    exists (IZR (Math.ceil_Z r)). split; [exact Ec |]. split; lra.
Qed.

Lemma gearTeeth_positive (req : DesignRequirements) (n t : R) :
  nominalInputRPM req = Fin n -> targetOutputRPM req = Fin t ->
  0 < n -> 0 < t <= 36 * n ->
  exists z : Z, (0 < z)%Z /\ gearTeeth req = Fin (IZR z)
    /\ IZR z - / 2 <= 18 * (n / t) < IZR z + / 2.
Proof.
  intros En Et Hn Ht.
  assert (Hne : t <> 0) by lra.
  rewrite (gearTeeth_finite req n t En Et Hne Hn).
  assert (Hx : 1 / 2 <= 18 * (n / t))
    by (apply half_turn_threshold; assumption).
  pose proof (floor_Z_bounds (18 * (n / t) + / 2)) as [Hl Hu].
  set (z := Math.floor_Z (18 * (n / t) + / 2)) in *.
  assert (Hz : (0 < z)%Z) by (apply lt_IZR; lra).
  exists z. split; [exact Hz |]. split; [| lra].
  apply round_Fin; [lia | lra].
Qed.

Lemma scenario_operating_range :
  operating_range Scenario.req 50 120 1200 250.
Proof. unfold operating_range, Scenario.req; cbn. repeat split; lra. Qed.

(** The cube of the raw module (in metres) for a torque [T], a yield
    strength [S] and [z] teeth on the gear. *)
Lemma raw_cube_nonneg (T S : R) (z : Z) :
  0 <= T -> 0 < S -> (0 < z)%Z ->
  0 <= (2 * (T / (IZR z / 18)))
       / (10 * 18 * Scenario.Y18 * (S * 1000000 / 2)).
Proof.
  intros HT HS Hz.
  assert (Hzr : 0 < IZR z) by now apply IZR_lt.
  assert (Hq : 0 < IZR z / 18) by (apply Rdiv_lt_0_compat; lra).
  assert (HTp : 0 <= T / (IZR z / 18)).
  { apply Rmult_le_pos; [exact HT |]. left. now apply Rinv_0_lt_compat. }
  assert (HY : 0 < Scenario.Y18) by (unfold Scenario.Y18; lra).
  apply Rmult_le_pos; [lra |]. left. apply Rinv_0_lt_compat.
  apply Rmult_lt_0_compat; [| lra].
  apply Rmult_lt_0_compat; [lra | exact HY].
Qed.

(** The values of the solver's locals on requirements in the operating
    range. *)
Lemma moduleMm_value (req : DesignRequirements) (T t n S : R) :
  operating_range req T t n S ->
  exists z : Z,
    (0 < z)%Z
    /\ gearTeeth req = Fin (IZR z)
    /\ IZR z - / 2 <= 18 * (n / t) < IZR z + / 2
    /\ actualRatio req = Fin (IZR z / 18)
    /\ has_value (pinionTorque req) (T / (IZR z / 18))
    /\ has_value (moduleMm req)
         (cube_root ((2 * (T / (IZR z / 18)))
                     / (10 * 18 * Scenario.Y18 * (S * 1000000 / 2)))
          * 1000).
Proof.
  intros (ET & Et & En & ES & HT & HS & Hn & Ht).
  destruct (gearTeeth_positive req n t En Et Hn Ht) as (z & Hz & Eg & Hr).
  assert (Hzr : 0 < IZR z) by now apply IZR_lt.
  assert (Ear : actualRatio req = Fin (IZR z / 18)).
  { unfold actualRatio, pinionTeeth. rewrite Eg.
    rewrite div_Fin by lra. reflexivity. }
  assert (Hq : 0 < IZR z / 18) by (apply Rdiv_lt_0_compat; lra).
  assert (Hp : has_value (pinionTorque req) (T / (IZR z / 18))).
  { unfold pinionTorque. rewrite ET, Ear.
    apply has_value_div; [apply has_value_Fin .. | lra]. }
  pose proof (raw_cube_nonneg T S z HT HS Hz) as Hc.
  pose proof ScenarioFacts.lewis_18 as EY.
  assert (HY : 0 < Scenario.Y18) by (unfold Scenario.Y18; lra).
  set (A := S * 1000000 / 2) in *.
  assert (HA : 0 < A) by (unfold A; lra).
  set (Tp := T / (IZR z / 18)) in *.
  assert (Hden : 0 < 10 * 18 * Scenario.Y18 * A).
  { apply Rmult_lt_0_compat; [| exact HA].
    apply Rmult_lt_0_compat; [lra | exact HY]. }
  assert (Hm3 : has_value (mCubed req)
                  ((2 * Tp) / (10 * 18 * Scenario.Y18 * A))).
  { unfold mCubed, pinionTeeth, allowableStress, designSafetyFactor;
      cbv zeta.
    rewrite EY, ES.
    apply has_value_div; [| | lra].
    - apply has_value_mul; [apply has_value_Fin | exact Hp].
    - repeat apply has_value_mul; try apply has_value_Fin.
      unfold A. apply has_value_div; [| apply has_value_Fin | lra].
      apply has_value_mul; apply has_value_Fin. }
  exists z. repeat split; try assumption; try lra.
  unfold moduleMm, moduleMeters.
  apply has_value_mul; [| apply has_value_Fin].
  now apply pow_third_value.
Qed.

Lemma design_values (req : DesignRequirements) (T t n S : R) :
  operating_range req T t n S ->
  exists (z : Z) (mm : R),
    (0 < z)%Z
    /\ gearTeeth req = Fin (IZR z)
    /\ IZR z - / 2 <= 18 * (n / t) < IZR z + / 2
    /\ actualRatio req = Fin (IZR z / 18)
    /\ has_value (pinionTorque req) (T / (IZR z / 18))
    /\ selectedModule req = Fin mm
    /\ 0.5 <= mm
    /\ (2 * (T / (IZR z / 18)))
       / (10 * 18 * Scenario.Y18 * (S * 1000000 / 2)) * 1000 ^ 3
       <= mm ^ 3.
Proof.
  intros Hr.
  destruct (moduleMm_value req T t n S Hr)
    as (z & Hz & Eg & Hrd & Ear & Hp & Hraw).
  destruct Hr as (_ & _ & _ & _ & HT & HS & _ & _).
  pose proof (raw_cube_nonneg T S z HT HS Hz) as Hc.
  set (c := (2 * (T / (IZR z / 18)))
            / (10 * 18 * Scenario.Y18 * (S * 1000000 / 2))) in *.
  destruct (selectedModule_value req _ Hraw) as (mm & Em & Hge & Hmin).
  exists z, mm. repeat split; try assumption; try lra.
  fold c.
  pose proof (cube_root_nonneg c) as Hcr.
  pose proof (cube_root_cube c Hc) as Hcube.
  rewrite <- Hcube, <- Rpow_mult_distr.
  apply pow_incr. split; [| exact Hge].
  apply Rmult_le_pos; lra.
Qed.

(** X1: on requirements in the operating range, the bending stress that a
    step reports for the solver's design is finite and at most the
    allowable stress, the yield strength over the safety factor 2. *)
Theorem design_within_allowable_stress (req : DesignRequirements)
    (T t n S : R) (time : number) (g : RandomSource) :
  operating_range req T t n S ->
  exists sigma : R,
    has_value
      (stress (fst (simulateStep time (calculateGearDesign req) req g)))
      sigma
    /\ 0 <= sigma <= S / 2.
Proof.
  intros Hr.
  destruct (design_values req T t n S Hr)
    as (z & mm & Hz & _ & _ & _ & Hp & Em & Hmin & Hcube).
  destruct Hr as (_ & _ & _ & _ & HT & HS & _ & _).
  assert (Hzr : 0 < IZR z) by now apply IZR_lt.
  assert (Hq : 0 < IZR z / 18) by (apply Rdiv_lt_0_compat; lra).
  assert (HTp : 0 <= T / (IZR z / 18)).
  { apply Rmult_le_pos; [exact HT |]. left. now apply Rinv_0_lt_compat. }
  set (Tp := T / (IZR z / 18)) in *.
  assert (HY : 0 < Scenario.Y18) by (unfold Scenario.Y18; lra).
  set (Y := Scenario.Y18) in *.
  rewrite simulateStep_point; cbn [stress].
  unfold lewisStress.
  cbn [calculateGearDesign pinion gear ratio pinionParams gearParams
       torque diameter faceWidth module teeth].
  change (targetOutputTorque req / actualRatio req)%js
    with (pinionTorque req).
  unfold pinionTeeth. rewrite Em, ScenarioFacts.lewis_18. fold Y.
  assert (Hm2 : 0 < mm * mm) by nra.
  assert (Hm3 : 0 < mm ^ 3) by (apply pow_lt; lra).
  exists ((Tp / (18 * mm / 2 / 1000))
          / ((mm * 10 / 1000) * (mm / 1000) * Y) / 1e6).
  split.
  - apply has_value_div; [| apply has_value_Fin | lra].
    apply has_value_div.
    + apply has_value_div; [exact Hp | | lra].
      apply has_value_div; [| apply has_value_Fin | lra].
      apply has_value_div; [| apply has_value_Fin | lra].
      apply has_value_mul; apply has_value_Fin.
    + repeat apply has_value_mul; try apply has_value_Fin.
      * apply has_value_div; [| apply has_value_Fin | lra].
        apply has_value_mul; apply has_value_Fin.
      * apply has_value_div; [apply has_value_Fin .. | lra].
    + apply Rgt_not_eq. apply Rmult_lt_0_compat; [| exact HY].
      apply Rmult_lt_0_compat; lra.
  - assert (E : (Tp / (18 * mm / 2 / 1000))
                / ((mm * 10 / 1000) * (mm / 1000) * Y) / 1e6
                = 2000 * Tp / (180 * Y * mm ^ 3)).
    { field. lra. }
    rewrite E.
    assert (Hb : 4000 * Tp / (180 * Y * S) <= mm ^ 3).
    { replace (4000 * Tp / (180 * Y * S))
        with (2 * Tp / (10 * 18 * Y * (S * 1000000 / 2)) * 1000 ^ 3)
        by (field; lra).
      exact Hcube. }
    assert (HD : 0 < 180 * Y * mm ^ 3).
    { apply Rmult_lt_0_compat; [lra | exact Hm3]. }
    split.
    + apply Rmult_le_pos; [lra |]. left. now apply Rinv_0_lt_compat.
    + apply Rmult_le_reg_r with (180 * Y * mm ^ 3); [exact HD |].
      unfold Rdiv at 1. rewrite Rmult_assoc, Rinv_l by lra.
      apply Rmult_le_reg_r with (/ (180 * Y * S)).
      { apply Rinv_0_lt_compat. apply Rmult_lt_0_compat; lra. }
      replace (S / 2 * (180 * Y * mm ^ 3) * / (180 * Y * S))
        with (mm ^ 3 / 2) by (field; lra).
      unfold Rdiv in Hb. lra.
Qed.

(** The example scenario is in the operating range. *)
Lemma design_within_allowable_stress_scenario :
  operating_range Scenario.req 50 120 1200 250
  /\ exists sigma : R,
       has_value
         (stress (fst (simulateStep (Fin 0)
                         (calculateGearDesign Scenario.req) Scenario.req
                         Scenario.quarter)))
         sigma
       /\ 0 <= sigma <= 250 / 2.
Proof.
  split; [exact scenario_operating_range |].
  exact (design_within_allowable_stress Scenario.req 50 120 1200 250
           (Fin 0) Scenario.quarter scenario_operating_range).
Defined.

(** X2: whenever the raw module is not [NaN], the selected module is not
    below it (the module is never rounded down) and not below 0.5 mm, the
    smallest standard module. *)
Theorem selectedModule_never_below_raw (req : DesignRequirements) :
  moduleMm req <> NaN ->
  Number.ge (selectedModule req) (moduleMm req) = true
  /\ Number.ge (selectedModule req) (Fin 0.5) = true.
Proof.
  intros Hn.
  destruct (module_range (moduleMm req)) as [E | [Hle | Hgt]];
    [contradiction | |].
  - destruct (selectedModule_first req Hle)
      as [(before & after & _ & Hge & _) Hin].
    split; [exact Hge |].
    destruct (standardModules_values _ Hin) as (v & -> & Hv).
    unfold Number.ge, Number.le; simpl. decide_reals. reflexivity.
  - rewrite (selectedModule_ceil req Hgt).
    unfold Number.gt, Number.lt in Hgt.
    destruct (moduleMm req) as [| [|] | | r]; try discriminate.
    + split; reflexivity.
    + simpl in Hgt. destruct (Rlt_dec 20 0); [lra | discriminate].
    + simpl in Hgt. destruct (Rlt_dec 20 r) as [Hr | _]; [| discriminate].
      destruct (ceil_above_20 r Hr) as [-> Hz].
      pose proof (ceil_Z_bounds r) as [_ Hb].
      unfold Number.ge, Number.le; simpl. split; decide_reals; reflexivity.
Qed.

(** The raw module of the example scenario is a number. *)
Lemma selectedModule_never_below_raw_scenario :
  moduleMm Scenario.req <> NaN
  /\ Number.ge (selectedModule Scenario.req) (moduleMm Scenario.req) = true.
Proof.
  assert (H : moduleMm Scenario.req <> NaN).
  { rewrite ScenarioFacts.moduleMm_req. discriminate. }
  split; [exact H |].
  exact (proj1 (selectedModule_never_below_raw Scenario.req H)).
Defined.



Lemma mul_1_r (x : number) : (x * Fin 1)%js = x.
Proof.
  destruct x as [| s | | r]; unfold Number.mul, Number.is_zero,
    Number.finite, Number.signbit, Number.zero; cbn [Number.real_part].
  - reflexivity.
  - decide_reals. now rewrite xorb_false_r.
  - decide_reals. reflexivity.
  - destruct (Req_dec_T (r * 1) 0) as [E | _].
    + assert (r = 0) by lra. subst r. decide_reals. reflexivity.
    + f_equal. ring.
Qed.

(** X4: under constant forcing a step on the solver's own design returns
    the operating point of that design: the input speed is the nominal
    input speed, the output speed is the speed of the gear, the input
    torque is the torque on the pinion and the output torque the target
    torque, for every requirement, the degenerate ones included. *)
Theorem step_constant_reproduces_design (req : DesignRequirements)
    (t : number) (g : RandomSource) :
  inputVariability req = constant ->
  let d := calculateGearDesign req in
  let p := fst (simulateStep t d req g) in
  inputRPM p = nominalInputRPM req
  /\ outputRPM p = rpm (gear d)
  /\ inputTorque p = torque (pinion d)
  /\ outputTorque p = targetOutputTorque req.
Proof.
  intros Hc d p. subst d p. rewrite simulateStep_point.
  unfold inputFactor. rewrite Hc.
  cbn [inputRPM outputRPM inputTorque outputTorque fst
       calculateGearDesign pinion gear ratio pinionParams gearParams
       rpm torque].
  rewrite mul_1_r. repeat split.
Qed.

Lemma step_constant_reproduces_design_scenario :
  inputVariability Scenario.req = constant
  /\ inputRPM (fst (simulateStep (Fin 3) (calculateGearDesign Scenario.req)
                      Scenario.req Scenario.quarter))
     = nominalInputRPM Scenario.req.
Proof.
  split; [reflexivity |].
  exact (proj1 (step_constant_reproduces_design Scenario.req (Fin 3)
                  Scenario.quarter eq_refl)).
Defined.

(* ================================================================== *)
(** ** Monotonicity of the selected module *)
(* ================================================================== *)

Lemma standardModules_increasing : increasing standardModules.
Proof.
  unfold standardModules; simpl.
  repeat split;
    repeat (constructor; [do 2 eexists; repeat split; lra |]);
    constructor.
Qed.

Lemma increasing_split (before after : list number) (u : number) :
  increasing (before ++ u :: after) -> Forall (module_le u) after.
Proof.
  induction before as [| x before IH]; simpl.
  - now intros [H _].
  - intros [_ H]. now apply IH.
Qed.

Lemma cube_root_monotone (c1 c2 : R) :
  0 <= c1 <= c2 -> cube_root c1 <= cube_root c2.
Proof.
  intros [H1 H2]. unfold cube_root.
  destruct (Req_dec_T c1 0) as [E1 | N1], (Req_dec_T c2 0) as [E2 | N2];
    try lra.
  - left. apply exp_pos.
  - apply Rle_Rpower_l; lra.
Qed.

Lemma ceil_Z_monotone (r1 r2 : R) :
  r1 <= r2 -> (Math.ceil_Z r1 <= Math.ceil_Z r2)%Z.
Proof.
  intros H. pose proof (ceil_Z_bounds r1) as [L1 _].
  pose proof (ceil_Z_bounds r2) as [_ U2].
  assert (Hlt : IZR (Math.ceil_Z r1 - 1) < IZR (Math.ceil_Z r2)).
  { rewrite minus_IZR. lra. }
  apply lt_IZR in Hlt. lia.
Qed.

(** Snapping is monotone: a larger finite raw module never selects a
    smaller module. *)
Lemma selectedModule_monotone (req1 req2 : DesignRequirements) (a b : R) :
  has_value (moduleMm req1) a -> has_value (moduleMm req2) b -> a <= b ->
  exists u v : R,
    selectedModule req1 = Fin u /\ selectedModule req2 = Fin v /\ u <= v.
Proof.
  intros Ha Hb Hab.
  destruct (selectedModule_value req1 a Ha) as (u & Eu & Hau & _).
  destruct (selectedModule_value req2 b Hb) as (v & Ev & Hbv & _).
  exists u, v. split; [exact Eu |]. split; [exact Ev |].
  destruct (module_range (moduleMm req1)) as [E1 | [Hle1 | Hgt1]];
    [rewrite E1 in Ha; discriminate | |];
  destruct (module_range (moduleMm req2)) as [E2 | [Hle2 | Hgt2]];
    try (rewrite E2 in Hb; discriminate).
  - destruct (selectedModule_first req1 Hle1)
      as [(before & after & Hl & _ & Hbefore) _].
    destruct (selectedModule_first req2 Hle2) as [_ Hin2].
    rewrite Eu in Hl. rewrite Ev in Hin2.
    assert (Hge : Number.ge (Fin v) (moduleMm req1) = true).
    { unfold Number.ge.
      apply (has_value_le _ _ _ _ Ha (has_value_Fin v)). lra. }
    rewrite Hl in Hin2. apply in_app_or in Hin2.
    destruct Hin2 as [Hin | [Hin | Hin]].
    + rewrite Forall_forall in Hbefore. apply Hbefore in Hin. congruence.
    + injection Hin as <-. lra.
    + pose proof standardModules_increasing as Hs. rewrite Hl in Hs.
      apply increasing_split in Hs. rewrite Forall_forall in Hs.
      destruct (Hs _ Hin) as (x & y & [= <-] & [= <-] & Hxy). exact Hxy.
  - destruct (selectedModule_first req1 Hle1) as [_ Hin1].
    rewrite Eu in Hin1.
    destruct (standardModules_values _ Hin1) as (w & [= <-] & Hw).
    unfold Number.gt in Hgt2.
    apply (has_value_lt _ _ _ _ (has_value_Fin 20) Hb) in Hgt2. lra.
  - unfold Number.gt in Hgt1.
    apply (has_value_lt _ _ _ _ (has_value_Fin 20) Ha) in Hgt1.
    apply (has_value_le _ _ _ _ Hb (has_value_Fin 20)) in Hle2. lra.
  - rewrite (selectedModule_ceil req1 Hgt1) in Eu.
    rewrite (selectedModule_ceil req2 Hgt2) in Ev.
    unfold Number.gt in Hgt1, Hgt2.
    apply (has_value_lt _ _ _ _ (has_value_Fin 20) Ha) in Hgt1.
    apply (has_value_lt _ _ _ _ (has_value_Fin 20) Hb) in Hgt2.
    destruct (moduleMm req1) as [| s1 | | r1]; try discriminate;
      unfold has_value in Ha; simpl in Ha; injection Ha as <-.
    destruct (moduleMm req2) as [| s2 | | r2]; try discriminate;
      unfold has_value in Hb; simpl in Hb; injection Hb as <-.
    destruct (ceil_above_20 r1 Hgt1) as [E1 _].
    destruct (ceil_above_20 r2 Hgt2) as [E2 _].
    rewrite E1 in Eu. rewrite E2 in Ev.
    injection Eu as <-. injection Ev as <-.
    apply IZR_le. now apply ceil_Z_monotone.
Qed.

(** X5: between two requirements in the operating range with the same
    speeds, a larger torque or a weaker material never selects a smaller
    module. *)
Theorem module_monotone_in_load (req1 req2 : DesignRequirements)
    (T1 T2 t n S1 S2 : R) :
  operating_range req1 T1 t n S1 -> operating_range req2 T2 t n S2 ->
  T1 <= T2 -> S2 <= S1 ->
  exists u v : R,
    selectedModule req1 = Fin u /\ selectedModule req2 = Fin v /\ u <= v.
Proof.
  intros R1 R2 HT HS.
  destruct (moduleMm_value req1 T1 t n S1 R1)
    as (z1 & Hz1 & Eg1 & _ & _ & _ & Hraw1).
  destruct (moduleMm_value req2 T2 t n S2 R2)
    as (z2 & Hz2 & Eg2 & _ & _ & _ & Hraw2).
  destruct R1 as (_ & Et1 & En1 & _ & HT1 & HS1 & Hn & Ht).
  destruct R2 as (_ & Et2 & En2 & _ & HT2 & HS2 & _ & _).
  assert (Ez : z2 = z1).
  { assert (E : gearTeeth req2 = gearTeeth req1).
    { unfold gearTeeth, nominalRatio. now rewrite En1, En2, Et1, Et2. }
    rewrite Eg1, Eg2 in E. injection E as E. now apply eq_IZR. }
  subst z2.
  apply (selectedModule_monotone req1 req2 _ _ Hraw1 Hraw2).
  apply Rmult_le_compat_r; [lra |].
  apply cube_root_monotone.
  split; [now apply raw_cube_nonneg |].
  assert (Hzr : 0 < IZR z1) by now apply IZR_lt.
  assert (HY : 0 < Scenario.Y18) by (unfold Scenario.Y18; lra).
  set (Y := Scenario.Y18) in *.
  set (k := 2 / ((IZR z1 / 18) * (10 * 18 * Y) * 500000)).
  assert (Hk : 0 < k).
  { unfold k. apply Rdiv_lt_0_compat; [lra |].
    repeat apply Rmult_lt_0_compat; lra. }
  replace (2 * (T1 / (IZR z1 / 18)) / (10 * 18 * Y * (S1 * 1000000 / 2)))
    with (k * (T1 * / S1)) by (unfold k; field; lra).
  replace (2 * (T2 / (IZR z1 / 18)) / (10 * 18 * Y * (S2 * 1000000 / 2)))
    with (k * (T2 * / S2)) by (unfold k; field; lra).
  apply Rmult_le_compat_l; [lra |].
  apply Rmult_le_compat; try lra.
  - left. now apply Rinv_0_lt_compat.
  - now apply Rinv_le_contravar.
Qed.

(** The example scenario against the heavy one. *)
Lemma module_monotone_in_load_scenario :
  operating_range Scenario.req 50 120 1200 250
  /\ operating_range Corner.heavy 400000 120 1200 250
  /\ 50 <= 400000 /\ 250 <= 250
  /\ exists u v : R,
       selectedModule Scenario.req = Fin u
       /\ selectedModule Corner.heavy = Fin v /\ u <= v.
Proof.
  assert (H2 : operating_range Corner.heavy 400000 120 1200 250).
  { unfold operating_range, Corner.heavy; cbn. repeat split; lra. }
  assert (H3 : 50 <= 400000) by lra.
  assert (H4 : 250 <= 250) by lra.
  split; [exact scenario_operating_range |].
  split; [exact H2 |]. split; [exact H3 |]. split; [exact H4 |].
  exact (module_monotone_in_load Scenario.req Corner.heavy
           50 400000 120 1200 250 250 scenario_operating_range H2 H3 H4).
Defined.

(* ================================================================== *)
(** ** The Lewis form factor *)
(* ================================================================== *)

(** X6: on positive tooth counts the Lewis factor is finite, increasing
    in the tooth count and below 0.484; it is positive exactly when
    [0.484 * teeth > 2.87], that is from six teeth up.  For zero teeth it
    is [-Infinity]. *)
Theorem lewis_factor_profile (z1 z2 : R) :
  0 < z1 <= z2 ->
  exists Y1 Y2 : R,
    calculateLewisFactor (Fin z1) = Fin Y1
    /\ calculateLewisFactor (Fin z2) = Fin Y2
    /\ Y1 <= Y2 < 0.484
    /\ (0 < Y1 <-> 2.87 < 0.484 * z1)
    /\ calculateLewisFactor (Fin 0) = Infinity true.
Proof.
  intros [H1 H2]. unfold calculateLewisFactor.
  exists (0.484 - 2.87 / z1), (0.484 - 2.87 / z2).
  rewrite !div_Fin, !sub_Fin by lra.
  split; [reflexivity |]. split; [reflexivity |].
  assert (I1 : 0 < / z1) by now apply Rinv_0_lt_compat.
  assert (I2 : 0 < / z2) by (apply Rinv_0_lt_compat; lra).
  assert (I12 : / z2 <= / z1) by (apply Rinv_le_contravar; lra).
  unfold Rdiv. split; [lra |]. split.
  - assert (E : z1 * / z1 = 1) by (apply Rinv_r; lra).
    split; intros H; nra.
  - unfold Number.div, Number.sub, Number.neg, Number.add,
      Number.is_zero, Number.signbit.
    decide_reals. reflexivity.
Qed.

Lemma lewis_factor_profile_pinion :
  0 < 18 <= 180
  /\ exists Y1 Y2 : R,
       calculateLewisFactor (Fin 18) = Fin Y1
       /\ calculateLewisFactor (Fin 180) = Fin Y2
       /\ Y1 <= Y2 < 0.484.
Proof.
  assert (H : 0 < 18 <= 180) by lra.
  split; [exact H |].
  destruct (lewis_factor_profile 18 180 H) as (Y1 & Y2 & E1 & E2 & HY & _).
  exists Y1, Y2. auto.
Defined.

(* ================================================================== *)
(** ** The trailing buffer of the simulation *)
(* ================================================================== *)

Module AppFacts.
Import App.

Lemma pushPoint_lastn (p : SimulationPoint) (l : list SimulationPoint) :
  pushPoint p l = lastn 200 (l ++ [p]).
Proof.
  unfold pushPoint, lastn.
  destruct (200 <? length (l ++ [p]))%nat eqn:E; [reflexivity |].
  apply Nat.ltb_ge in E.
  replace (length (l ++ [p]) - 200)%nat with 0%nat by lia. reflexivity.
Qed.

Lemma lastn_length {A : Type} (k : nat) (l : list A) :
  length (lastn k l) = Nat.min k (length l).
Proof. unfold lastn. rewrite length_skipn. lia. Qed.

Lemma lastn_app_lastn {A : Type} (k : nat) (l m : list A) :
  lastn k (lastn k l ++ m) = lastn k (l ++ m).
Proof.
  unfold lastn.
  destruct (Nat.le_gt_cases (length l) k) as [Hle | Hgt].
  - now replace (length l - k)%nat with 0%nat by lia.
  - set (a := (length l - k)%nat).
    assert (Ea : skipn a (l ++ m) = skipn a l ++ m).
    { rewrite skipn_app.
      now replace (a - length l)%nat with 0%nat by (unfold a; lia). }
    rewrite <- Ea, skipn_skipn. f_equal.
    rewrite length_skipn, !length_app. unfold a. lia.
Qed.

Lemma lastn_all {A : Type} (k : nat) (l : list A) :
  (length l <= k)%nat -> lastn k l = l.
Proof.
  intros H. unfold lastn.
  now replace (length l - k)%nat with 0%nat by lia.
Qed.

Lemma lastn_Forall {A : Type} (P : A -> Prop) (k : nat) (l : list A) :
  Forall P l -> Forall P (lastn k l).
Proof.
  intros H. unfold lastn. rewrite Forall_forall in *.
  intros x Hx. apply H. revert Hx. generalize (length l - k)%nat as j.
  intros j. revert l H. induction j as [| j IH]; intros l H Hx.
  - exact Hx.
  - destruct l as [| y l]; [contradiction |].
    right. apply (IH l); [| exact Hx].
    intros z Hz. apply H. now right.
Qed.

(** A frame on a running simulation, field by field. *)
Lemma loop_running (c : number) (st : State) :
  isRunning st = true ->
  loop c st =
  {| req := req st;
     design := design st;
     simulationData := pushPoint (framePoint c st) (simulationData st);
     isRunning := true;
     simTime := (simTime st + (c - lastTime st) / Fin 1000)%js;
     lastTime := c;
     random :=
       snd (simulateStep
              (simTime st + (c - lastTime st) / Fin 1000)%js
              (design st) (req st) (random st)) |}.
Proof.
  intros Hr. unfold loop, framePoint. rewrite Hr.
  now destruct (simulateStep _ _ _ _).
Qed.

Lemma loop_paused (c : number) (st : State) :
  isRunning st = false ->
  loop c st =
  {| req := req st;
     design := design st;
     simulationData := simulationData st;
     isRunning := false;
     simTime := simTime st;
     lastTime := c;
     random := random st |}.
Proof. intros Hr. unfold loop. now rewrite Hr. Qed.

Lemma loop_data_length (c : number) (st : State) :
  (length (simulationData st) <= 200)%nat ->
  (length (simulationData (loop c st)) <= 200)%nat.
Proof.
  intros H. destruct (isRunning st) eqn:Hr.
  - rewrite (loop_running c st Hr); cbn [simulationData].
    rewrite pushPoint_lastn, lastn_length. lia.
  - now rewrite (loop_paused c st Hr).
Qed.

Lemma run_cons (e : Event) (es : list Event) (st : State) :
  run (e :: es) st = run es (handle st e).
Proof. reflexivity. Qed.

Lemma run_app (es1 es2 : list Event) (st : State) :
  run (es1 ++ es2) st = run es2 (run es1 st).
Proof. apply fold_left_app. Qed.

(** X7: whatever happens to the component after it is mounted (frames,
    pauses, edits, resets, new designs), the buffer of simulation
    points never holds more than 200 points. *)
Theorem buffer_never_exceeds_200 (now : number) (g : RandomSource)
    (events : list Event) :
  (length (simulationData (run events (initial now g))) <= 200)%nat.
Proof.
  assert (Inv : forall es st,
             (length (simulationData st) <= 200)%nat ->
             (length (simulationData (run es st)) <= 200)%nat).
  { induction es as [| e es IH]; intros st H; [exact H |].
    apply IH. destruct e; cbn [handle toggleRunning setReq reset
                                 handleOptimize simulationData length];
      try lia; try exact H.
    now apply loop_data_length. }
  apply Inv. cbn. lia.
Qed.

(** X8: while the simulation runs, the buffer holds the most recent 200
    of the points it held and the points the frames produced, in the
    order of production: the oldest points are evicted first. *)
Theorem buffer_is_fifo (times : list number) (st : State) :
  isRunning st = true ->
  (length (simulationData st) <= 200)%nat ->
  simulationData (frames times st)
  = lastn 200 (simulationData st ++ trace times st)
  /\ length (simulationData (frames times st))
     = Nat.min 200 (length (simulationData st) + length times).
Proof.
  intros Hr Hl.
  assert (E : simulationData (frames times st)
              = lastn 200 (simulationData st ++ trace times st)).
  { revert st Hr Hl. unfold frames.
    induction times as [| c times IH]; intros st Hr Hl.
    - cbn. rewrite app_nil_r. symmetry. now apply lastn_all.
    - cbn [map run fold_left handle trace].
      change (fold_left handle (map Frame times) (loop c st))
        with (run (map Frame times) (loop c st)).
      rewrite IH.
      + rewrite (loop_running c st Hr); cbn [simulationData].
        rewrite pushPoint_lastn, lastn_app_lastn.
        now rewrite <- app_assoc.
      + now rewrite (loop_running c st Hr).
      + now apply loop_data_length. }
  split; [exact E |].
  rewrite E, lastn_length, length_app.
  assert (Et : forall ts s, length (trace ts s) = length ts).
  { induction ts as [| c ts IH]; intros s; [reflexivity |].
    cbn. now rewrite IH. }
  now rewrite Et.
Qed.

(** A run of three frames just after mounting and pressing run. *)
Lemma buffer_is_fifo_three_frames :
  let st := toggleRunning (Fin 0) (initial (Fin 0) Scenario.quarter) in
  isRunning st = true
  /\ (length (simulationData st) <= 200)%nat
  /\ length (simulationData (frames [Fin 16; Fin 32; Fin 48] st)) = 3%nat.
Proof.
  split; [reflexivity |]. split; [cbn; lia |].
  exact (proj2 (buffer_is_fifo [Fin 16; Fin 32; Fin 48]
                  (toggleRunning (Fin 0) (initial (Fin 0) Scenario.quarter))
                  eq_refl (Nat.le_0_l 200))).
Defined.

Lemma last_cons {A : Type} (c d : A) (cs : list A) :
  last (c :: cs) d = last cs c.
Proof.
  revert c d. induction cs as [| x cs IH]; intros c d; [reflexivity |].
  change (last (c :: x :: cs) d) with (last (x :: cs) d).
  now rewrite !IH.
Qed.

Lemma framePoint_time (c : number) (st : State) :
  time (framePoint c st)
  = (simTime st + (c - lastTime st) / Fin 1000)%js.
Proof. unfold framePoint. now rewrite simulateStep_point. Qed.

(** X9: while the simulation runs with finite clock readings, the
    simulated time advances by exactly the seconds that elapsed on the
    clock: after the frames at [cs] it is the time at the start plus
    [(last reading - first reading) / 1000], and every point produced is
    stamped with the seconds elapsed up to its own frame. *)
Theorem clock_follows_frames (cs : list R) (st : State) (s0 L0 : R) :
  isRunning st = true ->
  has_value (simTime st) s0 -> has_value (lastTime st) L0 ->
  has_value (simTime (frames (map Fin cs) st))
    (s0 + (last cs L0 - L0) / 1000)
  /\ has_value (lastTime (frames (map Fin cs) st)) (last cs L0)
  /\ Forall2 (fun p c => has_value (time p) (s0 + (c - L0) / 1000))
       (trace (map Fin cs) st) cs.
Proof.
  revert st s0 L0. unfold frames.
  induction cs as [| c cs IH]; intros st s0 L0 Hr Hs HL.
  - cbn. repeat split; [| exact HL | constructor].
    apply (has_value_eq _ _ _ Hs). lra.
  - cbn [map trace]. rewrite run_cons. cbn [handle].
    assert (Hs1 : has_value (simTime (loop (Fin c) st))
                    (s0 + (c - L0) / 1000)).
    { rewrite (loop_running _ st Hr); cbn [simTime].
      apply has_value_add; [exact Hs |].
      apply has_value_div; [| apply has_value_Fin | lra].
      apply has_value_sub; [apply has_value_Fin | exact HL]. }
    assert (HL1 : has_value (lastTime (loop (Fin c) st)) c).
    { rewrite (loop_running _ st Hr). apply has_value_Fin. }
    assert (Hr1 : isRunning (loop (Fin c) st) = true).
    { now rewrite (loop_running _ st Hr). }
    destruct (IH _ _ _ Hr1 Hs1 HL1) as (I1 & I2 & I3).
    rewrite last_cons. repeat split.
    + apply (has_value_eq _ _ _ I1). lra.
    + exact I2.
    + constructor.
      * rewrite framePoint_time.
        rewrite (loop_running _ st Hr) in Hs1. exact Hs1.
      * eapply Forall2_impl; [| exact I3].
        intros p c' Hp. apply (has_value_eq _ _ _ Hp). lra.
Qed.

Lemma clock_follows_frames_three :
  let st := toggleRunning (Fin 1000) (initial (Fin 0) Scenario.quarter) in
  isRunning st = true
  /\ has_value (simTime st) 0 /\ has_value (lastTime st) 1000
  /\ has_value (simTime (frames (map Fin [1016; 1032; 1048]) st))
       (0 + (1048 - 1000) / 1000).
Proof.
  repeat split.
  exact (proj1 (clock_follows_frames [1016; 1032; 1048]
                  (toggleRunning (Fin 1000)
                     (initial (Fin 0) Scenario.quarter))
                  0 1000 eq_refl eq_refl eq_refl)).
Defined.

Lemma paused_frames (times : list number) (st : State) :
  isRunning st = false ->
  isRunning (frames times st) = false
  /\ simTime (frames times st) = simTime st
  /\ simulationData (frames times st) = simulationData st
  /\ random (frames times st) = random st
  /\ design (frames times st) = design st
  /\ req (frames times st) = req st.
Proof.
  revert st. unfold frames.
  induction times as [| c times IH]; intros st Hr; [now cbn |].
  cbn [map run fold_left handle].
  change (fold_left handle (map Frame times) (loop c st))
    with (run (map Frame times) (loop c st)).
  destruct (IH (loop c st)) as (I1 & I2 & I3 & I4 & I5 & I6).
  { now rewrite (loop_paused c st Hr). }
  rewrite I1, I2, I3, I4, I5, I6, (loop_paused c st Hr). now cbn.
Qed.

(** X10: time spent paused is not simulated.  When a running simulation
    is paused, left for any number of frames and resumed at the clock
    reading [r], the first frame after that, at [c], advances the
    simulated time by [(c - r) / 1000] only, and the buffer gains exactly
    the one point of that frame. *)
Theorem pause_does_not_advance_time (st : State) (s0 r c : R)
    (p : number) (idle : list number) :
  isRunning st = true ->
  has_value (simTime st) s0 ->
  let st' :=
    run (Toggle p :: map Frame idle ++ [Toggle (Fin r); Frame (Fin c)]) st
  in
  has_value (simTime st') (s0 + (c - r) / 1000)
  /\ exists point : SimulationPoint,
       simulationData st' = pushPoint point (simulationData st)
       /\ has_value (time point) (s0 + (c - r) / 1000).
Proof.
  intros Hr Hs st'. subst st'.
  change (Toggle p :: map Frame idle ++ [Toggle (Fin r); Frame (Fin c)])
    with ([Toggle p] ++ map Frame idle ++ [Toggle (Fin r); Frame (Fin c)]).
  rewrite !run_app.
  set (s1 := run [Toggle p] st).
  assert (H1 : isRunning s1 = false) by (cbn; now rewrite Hr).
  destruct (paused_frames idle s1 H1) as (I1 & I2 & I3 & I4 & I5 & I6).
  fold (frames idle s1).
  set (s2 := frames idle s1) in *.
  cbn [run fold_left handle].
  assert (H2 : isRunning (toggleRunning (Fin r) s2) = true).
  { cbn. now rewrite I1. }
  rewrite (loop_running _ _ H2).
  cbn [simTime simulationData toggleRunning lastTime].
  assert (Hv : has_value
                 (simTime s2 + (Fin c - Fin r) / Fin 1000)%js
                 (s0 + (c - r) / 1000)).
  { rewrite I2. apply has_value_add; [exact Hs |].
    apply has_value_div; [| apply has_value_Fin | lra].
    apply has_value_sub; apply has_value_Fin. }
  split; [exact Hv |].
  exists (framePoint (Fin c) (toggleRunning (Fin r) s2)).
  rewrite I3. split; [reflexivity |].
  rewrite framePoint_time. exact Hv.
Qed.

Lemma pause_does_not_advance_time_example :
  let st := toggleRunning (Fin 0) (initial (Fin 0) Scenario.quarter) in
  isRunning st = true /\ has_value (simTime st) 0
  /\ has_value
       (simTime (run (Toggle (Fin 10) :: map Frame [Fin 20; Fin 30]
                        ++ [Toggle (Fin 5000); Frame (Fin 5016)]) st))
       (0 + (5016 - 5000) / 1000).
Proof.
  repeat split.
  exact (proj1 (pause_does_not_advance_time
                  (toggleRunning (Fin 0) (initial (Fin 0) Scenario.quarter))
                  0 5000 5016 (Fin 10) [Fin 20; Fin 30]
                  eq_refl eq_refl)).
Defined.

(** X11: whatever happens to the component after it is mounted, every
    point in the buffer was computed on the design currently shown: it
    carries the Lewis stress of that design, the torque of its gear as
    output torque and that torque over the ratio as input torque.  (A new
    design empties the buffer; editing the requirements changes neither
    the design nor the torques and the stress of later points.) *)
Theorem buffer_matches_design (now : number) (g : RandomSource)
    (events : list Event) :
  let st := run events (initial now g) in
  Forall (fun p =>
            stress p = lewisStress (design st)
            /\ outputTorque p = torque (gear (design st))
            /\ inputTorque p
               = (torque (gear (design st)) / ratio (design st))%js)
         (simulationData st).
Proof.
  set (ok := fun (d : DesignResult) (p : SimulationPoint) =>
               stress p = lewisStress d
               /\ outputTorque p = torque (gear d)
               /\ inputTorque p = (torque (gear d) / ratio d)%js).
  assert (Inv : forall es st,
             Forall (ok (design st)) (simulationData st) ->
             Forall (ok (design (run es st))) (simulationData (run es st))).
  { induction es as [| e es IH]; intros st H; [exact H |].
    apply IH. destruct e; cbn [handle]; try exact H; try constructor.
    destruct (isRunning st) eqn:Hr.
    - rewrite (loop_running _ st Hr); cbn [design simulationData].
      rewrite pushPoint_lastn. apply lastn_Forall.
      apply Forall_app. split; [exact H |].
      constructor; [| constructor].
      unfold ok, framePoint. rewrite simulateStep_point. now cbn.
    - now rewrite (loop_paused _ st Hr). }
  intros st. apply Inv. constructor.
Qed.

End AppFacts.

(* ================================================================== *)
(** ** The view of the gear pair *)
(* ================================================================== *)

Module GearVisualizerFacts.
Import GearVisualizer.

Lemma min_Fin (a b : R) : Math.min (Fin a) (Fin b) = Fin (Rmin a b).
Proof.
  unfold Math.min, Number.lt, Number.signbit, Rmin; cbn [Number.real_part].
  destruct (Rle_dec a b) as [Hle | Hnle];
    destruct (Rlt_dec a b) as [H1 | H1];
    destruct (Rlt_dec b a) as [H2 | H2];
    try lra; try reflexivity;
    destruct (Rlt_dec a 0); try reflexivity; f_equal; lra.
Qed.

Lemma max_Fin (a b : R) : Math.max (Fin a) (Fin b) = Fin (Rmax a b).
Proof.
  unfold Math.max, Number.lt, Number.signbit, Rmax; cbn [Number.real_part].
  destruct (Rle_dec a b) as [Hle | Hnle];
    destruct (Rlt_dec a b) as [H1 | H1];
    destruct (Rlt_dec b a) as [H2 | H2];
    try lra; try reflexivity;
    destruct (Rlt_dec a 0); try reflexivity; f_equal; lra.
Qed.

Lemma has_value_max (x y : number) (a b : R) :
  has_value x a -> has_value y b ->
  has_value (Math.max x y) (Rmax a b).
Proof.
  intros Hx Hy.
  pose proof (has_value_lt x y a b Hx Hy) as Lxy.
  pose proof (has_value_lt y x b a Hy Hx) as Lyx.
  assert (E : Math.max x y =
              if Number.lt x y then y
              else if Number.lt y x then x
              else if Number.signbit x then y else x).
  { destruct x, y; try discriminate; reflexivity. }
  rewrite E. unfold Rmax.
  destruct (Number.lt x y) eqn:E1.
  - assert (a < b) by now apply Lxy.
    destruct (Rle_dec a b); [exact Hy | lra].
  - assert (Hn1 : ~ a < b) by (intros H; apply Lxy in H; congruence).
    destruct (Number.lt y x) eqn:E2.
    + assert (b < a) by now apply Lyx.
      destruct (Rle_dec a b); [lra | exact Hx].
    + assert (Hn2 : ~ b < a) by (intros H; apply Lyx in H; congruence).
      assert (a = b) by lra. subst b.
      destruct (Rle_dec a a); destruct (Number.signbit x); assumption.
Qed.

(** X12: the zoom level stays between 0.5 and 5 whatever buttons are
    pressed, in any order and any number of times. *)
Theorem zoom_stays_in_range (actions : list ZoomAction) :
  exists z : R, zoomAfter actions = Fin z /\ 0.5 <= z <= 5.
Proof.
  unfold zoomAfter.
  assert (Inv : forall acts z0, 0.5 <= z0 <= 5 ->
            exists z, fold_left setZoom acts (Fin z0) = Fin z
                      /\ 0.5 <= z <= 5).
  { induction acts as [| a acts IH]; intros z0 Hz0.
    - exists z0. now split.
    - cbn [fold_left].
      destruct a; cbn [setZoom];
        unfold zoomIn, zoomOut, resetView.
      + rewrite mul_Fin, min_Fin by lra. apply IH.
        unfold Rmin. destruct (Rle_dec _ _); lra.
      + apply IH. lra.
      + rewrite div_Fin, max_Fin by lra. apply IH.
        unfold Rmax. destruct (Rle_dec _ _); lra.
      + apply IH. lra. }
  apply Inv. lra.
Qed.

(** The values of the bounding box of a design with finite dimensions. *)
Lemma baseBox_value (d : DesignResult) (dp dg m cd : R) :
  has_value (diameter (pinion d)) dp -> has_value (diameter (gear d)) dg ->
  has_value (module (pinion d)) m -> has_value (centerDistance d) cd ->
  let margin := Rmax (m * 2) (cd * 0.1) in
  let maxR := Rmax (dp / 2) (dg / 2) in
  has_value (boxX (baseBox d)) (- (dp / 2) - margin)
  /\ has_value (boxY (baseBox d)) (- maxR - margin)
  /\ has_value (boxWidth (baseBox d))
       (cd + dg / 2 + margin - (- (dp / 2) - margin))
  /\ has_value (boxHeight (baseBox d))
       (maxR + margin - (- maxR - margin)).
Proof.
  intros Hp Hg Hm Hc margin maxR.
  assert (HrP : has_value (diameter (pinion d) / Fin 2)%js (dp / 2)).
  { apply has_value_div; [exact Hp | apply has_value_Fin | lra]. }
  assert (HrG : has_value (diameter (gear d) / Fin 2)%js (dg / 2)).
  { apply has_value_div; [exact Hg | apply has_value_Fin | lra]. }
  assert (Hmg : has_value
                  (Math.max (module (pinion d) * Fin 2)%js
                            (centerDistance d * Fin 0.1)%js) margin).
  { apply has_value_max; apply has_value_mul;
      try assumption; apply has_value_Fin. }
  assert (HmR : has_value
                  (Math.max (diameter (pinion d) / Fin 2)%js
                            (diameter (gear d) / Fin 2)%js) maxR).
  { now apply has_value_max. }
  assert (HminX : has_value
            (Number.neg (diameter (pinion d) / Fin 2) -
             Math.max (module (pinion d) * Fin 2)
                      (centerDistance d * Fin 0.1))%js
            (- (dp / 2) - margin)).
  { apply has_value_sub; [| exact Hmg]. now apply has_value_neg. }
  assert (HminY : has_value
            (Number.neg (Math.max (diameter (pinion d) / Fin 2)
                                  (diameter (gear d) / Fin 2)) -
             Math.max (module (pinion d) * Fin 2)
                      (centerDistance d * Fin 0.1))%js
            (- maxR - margin)).
  { apply has_value_sub; [| exact Hmg]. now apply has_value_neg. }
  unfold baseBox; cbn [boxX boxY boxWidth boxHeight].
  repeat split; try assumption.
  - apply has_value_sub; [| exact HminX].
    repeat apply has_value_add; assumption.
  - apply has_value_sub; [| exact HminY].
    now apply has_value_add.
Qed.

(** X13: for a design with finite, non-negative pitch diameters, a
    positive module and the center distance of its two pitch radii, the
    bounding box of the drawing contains both gears up to the tips of
    their teeth (pitch radius plus one module), the pinion around the
    origin and the gear around [(centerDistance, 0)]. *)
Theorem bounding_box_contains_gears (d : DesignResult) (dp dg m cd : R) :
  has_value (diameter (pinion d)) dp -> has_value (diameter (gear d)) dg ->
  has_value (module (pinion d)) m -> has_value (centerDistance d) cd ->
  0 <= dp -> 0 <= dg -> 0 < m -> cd = (dp + dg) / 2 ->
  exists x y w h : R,
    has_value (boxX (baseBox d)) x /\ has_value (boxY (baseBox d)) y
    /\ has_value (boxWidth (baseBox d)) w
    /\ has_value (boxHeight (baseBox d)) h
    /\ (x <= - (dp / 2 + m) /\ dp / 2 + m <= x + w)
    /\ (x <= cd - (dg / 2 + m) /\ cd + (dg / 2 + m) <= x + w)
    /\ (y <= - (dp / 2 + m) /\ dp / 2 + m <= y + h)
    /\ (y <= - (dg / 2 + m) /\ dg / 2 + m <= y + h).
Proof.
  intros Hp Hg Hm Hc Hdp Hdg Hm0 Ecd.
  destruct (baseBox_value d dp dg m cd Hp Hg Hm Hc) as (Bx & By & Bw & Bh).
  do 4 eexists. repeat (split; [eassumption |]).
  pose proof (Rmax_l (m * 2) (cd * 0.1)).
  pose proof (Rmax_l (dp / 2) (dg / 2)).
  pose proof (Rmax_r (dp / 2) (dg / 2)).
  repeat split; lra.
Qed.

Lemma bounding_box_contains_gears_scenario :
  has_value (diameter (pinion Scenario.design)) 22.5
  /\ has_value (diameter (gear Scenario.design)) 225
  /\ has_value (module (pinion Scenario.design)) 1.25
  /\ has_value (centerDistance Scenario.design) 123.75
  /\ 0 <= 22.5 /\ 0 <= 225 /\ 0 < 1.25 /\ 123.75 = (22.5 + 225) / 2
  /\ exists x w : R,
       has_value (boxX (baseBox Scenario.design)) x
       /\ has_value (boxWidth (baseBox Scenario.design)) w
       /\ x <= - (22.5 / 2 + 1.25)
       /\ 123.75 + (225 / 2 + 1.25) <= x + w.
Proof.
  assert (H1 : has_value (diameter (pinion Scenario.design)) 22.5).
  { now rewrite ScenarioStep.pinion_design. }
  assert (H2 : has_value (diameter (gear Scenario.design)) 225).
  { now rewrite ScenarioStep.gear_design. }
  assert (H3 : has_value (module (pinion Scenario.design)) 1.25).
  { now rewrite ScenarioStep.pinion_design. }
  assert (H4 : has_value (centerDistance Scenario.design) 123.75).
  { now rewrite ScenarioStep.centerDistance_design. }
  assert (H5 : 0 <= 22.5) by lra.
  assert (H6 : 0 <= 225) by lra.
  assert (H7 : 0 < 1.25) by lra.
  assert (H8 : 123.75 = (22.5 + 225) / 2) by lra.
  repeat (split; [assumption |]).
  destruct (bounding_box_contains_gears Scenario.design 22.5 225 1.25 123.75
              H1 H2 H3 H4 H5 H6 H7 H8)
    as (x & y & w & h & Bx & _ & Bw & _ & [Hx _] & [_ Hw] & _).
  exists x, w. auto.
Defined.

(** X14: zooming keeps the view centred on the bounding box and divides
    its width and height by the zoom level; at zoom 1 the view is the
    bounding box itself. *)
Theorem view_is_centred (d : DesignResult) (zoom : number)
    (x y w h z : R) :
  has_value (boxX (baseBox d)) x -> has_value (boxY (baseBox d)) y ->
  has_value (boxWidth (baseBox d)) w -> has_value (boxHeight (baseBox d)) h ->
  has_value zoom z -> z <> 0 ->
  exists vx vy vw vh : R,
    has_value (boxX (viewBox d zoom)) vx
    /\ has_value (boxY (viewBox d zoom)) vy
    /\ has_value (boxWidth (viewBox d zoom)) vw
    /\ has_value (boxHeight (viewBox d zoom)) vh
    /\ vw = w / z /\ vh = h / z
    /\ vx + vw / 2 = x + w / 2 /\ vy + vh / 2 = y + h / 2
    /\ (z = 1 -> vx = x /\ vy = y /\ vw = w /\ vh = h).
Proof.
  intros Hx Hy Hw Hh Hz Hz0.
  exists (x + (w - w / z) / 2), (y + (h - h / z) / 2), (w / z), (h / z).
  unfold viewBox; cbn [boxX boxY boxWidth boxHeight].
  assert (Hvw : has_value (boxWidth (baseBox d) / zoom)%js (w / z))
    by now apply has_value_div.
  assert (Hvh : has_value (boxHeight (baseBox d) / zoom)%js (h / z))
    by now apply has_value_div.
  repeat split; try assumption; try lra.
  - apply has_value_add; [exact Hx |].
    apply has_value_div; [| apply has_value_Fin | lra].
    now apply has_value_sub.
  - apply has_value_add; [exact Hy |].
    apply has_value_div; [| apply has_value_Fin | lra].
    now apply has_value_sub.
  - subst z. field.
  - subst z. field.
  - subst z. field.
  - subst z. field.
Qed.

Lemma view_is_centred_scenario :
  exists x y w h : R,
    has_value (boxX (baseBox Scenario.design)) x
    /\ has_value (boxY (baseBox Scenario.design)) y
    /\ has_value (boxWidth (baseBox Scenario.design)) w
    /\ has_value (boxHeight (baseBox Scenario.design)) h
    /\ has_value (Fin 2) 2 /\ 2 <> 0
    /\ exists vx vw : R,
         has_value (boxX (viewBox Scenario.design (Fin 2))) vx
         /\ has_value (boxWidth (viewBox Scenario.design (Fin 2))) vw
         /\ vx + vw / 2 = x + w / 2.
Proof.
  assert (H1 : has_value (diameter (pinion Scenario.design)) 22.5).
  { now rewrite ScenarioStep.pinion_design. }
  assert (H2 : has_value (diameter (gear Scenario.design)) 225).
  { now rewrite ScenarioStep.gear_design. }
  assert (H3 : has_value (module (pinion Scenario.design)) 1.25).
  { now rewrite ScenarioStep.pinion_design. }
  assert (H4 : has_value (centerDistance Scenario.design) 123.75).
  { now rewrite ScenarioStep.centerDistance_design. }
  destruct (baseBox_value Scenario.design 22.5 225 1.25 123.75 H1 H2 H3 H4)
    as (Bx & By & Bw & Bh).
  assert (Hz : (2 <> 0)%R) by lra.
  do 4 eexists. repeat (split; [eassumption |]).
  split; [reflexivity |]. split; [exact Hz |].
  destruct (view_is_centred Scenario.design (Fin 2) _ _ _ _ 2
              Bx By Bw Bh eq_refl Hz)
    as (vx & vy & vw & vh & Vx & _ & Vw & _ & _ & _ & Hc & _).
  exists vx, vw. auto.
Defined.

End GearVisualizerFacts.

(* ================================================================== *)
(** ** The outline of a gear *)
(* ================================================================== *)

Module GearPathFacts.
Import Stdlib.Strings.String Stdlib.Strings.Ascii.
Import GearPath.

Lemma append_assoc (s1 s2 s3 : string) :
  ((s1 ++ s2) ++ s3)%string = (s1 ++ (s2 ++ s3))%string.
Proof.
  induction s1 as [| c s1 IH]; [reflexivity |].
  cbn. now rewrite IH.
Qed.

(** The loop condition [i < teeth] at the [k]-th iteration. *)
Lemma loop_condition (teeth : number) (r : R) (k : nat) :
  has_value teeth r ->
  Number.lt (Fin (INR k)) teeth = (k <? iterations r)%nat.
Proof.
  intros Hv. unfold iterations.
  pose proof (has_value_lt _ _ _ _ (has_value_Fin (INR k)) Hv) as Hlt.
  pose proof (ceil_Z_bounds r) as [Hl Hu].
  destruct (k <? Z.to_nat (Math.ceil_Z r))%nat eqn:E.
  - apply Nat.ltb_lt in E. apply Hlt.
    assert (Hz : (Z.of_nat k + 1 <= Math.ceil_Z r)%Z) by lia.
    apply IZR_le in Hz. rewrite plus_IZR, <- INR_IZR_INZ in Hz. lra.
  - apply Nat.ltb_ge in E. apply Bool.not_true_is_false. intros H.
    apply Hlt in H.
    assert (Hz : (Math.ceil_Z r <= Z.of_nat k)%Z) by lia.
    apply IZR_le in Hz. rewrite <- INR_IZR_INZ in Hz. lra.
Qed.

Lemma pathLoop_runs (toString : number -> string) (teeth modulus : number)
    (r : R) :
  has_value teeth r ->
  forall (n k fuel : nat) (points : list string),
    (k + n = Nat.max k (iterations r))%nat -> (n < fuel)%nat ->
    pathLoop toString fuel teeth modulus (Fin (INR k)) points
    = Some (points
            ++ map (lineTo toString)
                 (flat_map
                    (fun j => toothVertices teeth modulus (Fin (INR j)))
                    (seq k n))).
Proof.
  intros Hv. induction n as [| n IH]; intros k fuel points Hk Hf;
    (destruct fuel as [| fuel]; [lia |]); cbn [pathLoop];
    rewrite (loop_condition teeth r k Hv).
  - assert (E : (k <? iterations r)%nat = false)
      by (apply Nat.ltb_ge; lia).
    rewrite E. cbn. now rewrite app_nil_r.
  - assert (E : (k <? iterations r)%nat = true)
      by (apply Nat.ltb_lt; lia).
    rewrite E, add_Fin, <- S_INR.
    rewrite IH by lia.
    cbn [seq flat_map]. now rewrite map_app, app_assoc.
Qed.

Lemma outline_length (teeth modulus : number) (n : nat) :
  List.length (outline teeth modulus n) = (4 * n)%nat.
Proof.
  unfold outline.
  assert (H : forall k,
             List.length
               (flat_map
                  (fun j => toothVertices teeth modulus (Fin (INR j)))
                  (seq k n))
             = (4 * n)%nat).
  { induction n as [| n IH]; intros k; [reflexivity |].
    cbn [seq flat_map]. rewrite List.length_app, IH. cbn. lia. }
  apply H.
Qed.

Lemma toothVertices_shape (teeth modulus i : number) :
  exists v1 v2 v3 v4 : number * number,
    toothVertices teeth modulus i = [v1; v2; v3; v4].
Proof. unfold toothVertices. do 4 eexists. reflexivity. Qed.

Lemma replace_head (c d : ascii) (s : string) :
  Text.replace c d (String c s) = String d s.
Proof. cbn [Text.replace]. now rewrite Ascii.eqb_refl. Qed.

Lemma closePath_nonempty (toString : number -> string)
    (v : number * number) (rest : list string) :
  closePath (lineTo toString v :: rest)
  = ("M " ++ (toString (fst v) ++ " " ++ toString (snd v) ++ " "
              ++ Text.join " " rest) ++ " Z")%string.
Proof.
  unfold closePath, lineTo.
  change ("L " ++ toString (fst v) ++ " " ++ toString (snd v))%string
    with (String "L"
            (" " ++ toString (fst v) ++ " " ++ toString (snd v))%string).
  rewrite replace_head.
  change (String "M"
            (" " ++ toString (fst v) ++ " " ++ toString (snd v))%string)
    with ("M " ++ (toString (fst v) ++ " " ++ toString (snd v)))%string.
  now rewrite !append_assoc.
Qed.

(** X15: for a finite tooth count the path generator stops after one pass
    per tooth (the whole numbers below the count, none for a count of
    zero or less), and draws four vertices per tooth.  With no tooth the
    path is the empty string; otherwise it opens with a move command and
    is closed by [Z]. *)
Theorem path_of_finite_teeth (toString : number -> string)
    (teeth modulus pressureAngle : number) (r : R) (fuel : nat) :
  has_value teeth r -> (iterations r < fuel)%nat ->
  let vertices := outline teeth modulus (iterations r) in
  generateGearPath toString fuel teeth modulus pressureAngle
  = Some (closePath (map (lineTo toString) vertices))
  /\ List.length vertices = (4 * iterations r)%nat
  /\ (r <= 0 ->
      generateGearPath toString fuel teeth modulus pressureAngle
      = Some ""%string)
  /\ (0 < r ->
      exists body : string,
        generateGearPath toString fuel teeth modulus pressureAngle
        = Some ("M " ++ body ++ " Z")%string).
Proof.
  intros Hv Hf vertices.
  assert (E : generateGearPath toString fuel teeth modulus pressureAngle
              = Some (closePath (map (lineTo toString) vertices))).
  { unfold generateGearPath.
    change (Fin 0) with (Fin (INR 0)).
    rewrite (pathLoop_runs toString teeth modulus r Hv (iterations r) 0 fuel)
      by lia.
    reflexivity. }
  split; [exact E |]. split; [apply outline_length |].
  pose proof (ceil_Z_bounds r) as [Hl Hu].
  split.
  - intros Hr. rewrite E. subst vertices.
    assert (E0 : iterations r = 0%nat).
    { unfold iterations.
      assert (Hz : IZR (Math.ceil_Z r - 1) < IZR 0)
        by (rewrite minus_IZR; lra).
      apply lt_IZR in Hz. lia. }
    now rewrite E0.
  - intros Hr. rewrite E. subst vertices.
    assert (Hn : (0 < iterations r)%nat).
    { unfold iterations.
      assert (Hz : IZR 0 < IZR (Math.ceil_Z r)) by lra.
      apply lt_IZR in Hz. lia. }
    destruct (iterations r) as [| n]; [lia |].
    unfold outline. cbn [seq flat_map].
    destruct (toothVertices_shape teeth modulus (Fin (INR 0)))
      as (v1 & v2 & v3 & v4 & ->).
    cbn [app map]. rewrite closePath_nonempty. eexists. reflexivity.
Qed.

Lemma iterations_18 : iterations 18 = 18%nat.
Proof. unfold iterations. now rewrite (ceil_Z_spec 18 18) by lra. Qed.

(** The pinion of every design: 18 teeth. *)
Lemma path_of_finite_teeth_pinion :
  has_value (Fin 18) 18 /\ (iterations 18 < 19)%nat
  /\ exists body : string,
       generateGearPath (fun _ => "0"%string) 19 (Fin 18) (Fin 1.25) (Fin 20)
       = Some ("M " ++ body ++ " Z")%string.
Proof.
  assert (Hf : (iterations 18 < 19)%nat) by (rewrite iterations_18; lia).
  assert (Hp : 0 < 18) by lra.
  split; [reflexivity |]. split; [exact Hf |].
  exact (proj2 (proj2 (proj2
    (path_of_finite_teeth (fun _ => "0"%string) (Fin 18) (Fin 1.25) (Fin 20)
       18 19 eq_refl Hf))) Hp).
Defined.

Lemma pathLoop_endless (toString : number -> string) (modulus : number)
    (fuel : nat) :
  forall (x : R) (points : list string),
    pathLoop toString fuel (Infinity false) modulus (Fin x) points = None.
Proof.
  induction fuel as [| fuel IH]; intros x points; [reflexivity |].
  cbn [pathLoop]. change (Number.lt (Fin x) (Infinity false)) with true.
  cbv iota. rewrite add_Fin. apply IH.
Qed.

(** X16: a target output speed of zero with a positive input speed gives
    the gear an infinite tooth count, and on that count the loop of the
    path generator never ends: no amount of iterations returns a path. *)
Theorem path_never_ends_on_zero_output_speed (req : DesignRequirements)
    (n : R) :
  nominalInputRPM req = Fin n -> 0 < n -> targetOutputRPM req = Fin 0 ->
  teeth (gear (calculateGearDesign req)) = Infinity false
  /\ forall (toString : number -> string) (fuel : nat)
        (pressureAngle : number),
       generateGearPath toString fuel
         (teeth (gear (calculateGearDesign req)))
         (module (gear (calculateGearDesign req))) pressureAngle
       = None.
Proof.
  intros En Hn Et.
  assert (E : gearTeeth req = Infinity false).
  { unfold gearTeeth, nominalRatio, pinionTeeth. rewrite En, Et.
    unfold Number.div, Number.mul, Number.is_zero, Number.signbit.
    decide_reals. reflexivity. }
  cbn [calculateGearDesign gear gearParams teeth module].
  split; [exact E |].
  intros toString fuel pa. unfold generateGearPath.
  now rewrite E, pathLoop_endless.
Qed.

Lemma path_never_ends_on_zero_output_speed_stalled :
  nominalInputRPM Edge.stalled = Fin 1200 /\ 0 < 1200
  /\ targetOutputRPM Edge.stalled = Fin 0
  /\ teeth (gear (calculateGearDesign Edge.stalled)) = Infinity false.
Proof.
  assert (H : 0 < 1200) by lra.
  repeat split; try assumption.
  exact (proj1 (path_never_ends_on_zero_output_speed Edge.stalled 1200
                  eq_refl H eq_refl)).
Defined.

Lemma circle_point (radius a : R) :
  Rsqr (0 + radius * cos a) + Rsqr (0 + radius * sin a) = Rsqr radius.
Proof.
  pose proof (sin2_cos2 a) as H. unfold Rsqr in *. nra.
Qed.

(** The four vertices of a tooth: two on the root circle, two on the
    outer circle. *)
Lemma toothVertices_on_circles (teeth modulus i : number) (r m k : R) :
  has_value teeth r -> r <> 0 -> has_value modulus m -> has_value i k ->
  exists v1 v2 v3 v4 : number * number,
    toothVertices teeth modulus i = [v1; v2; v3; v4]
    /\ on_circle ((r * m - 2.5 * m) / 2) v1
    /\ on_circle ((r * m + 2 * m) / 2) v2
    /\ on_circle ((r * m + 2 * m) / 2) v3
    /\ on_circle ((r * m - 2.5 * m) / 2) v4.
Proof.
  intros Hr Hr0 Hm Hk. unfold toothVertices, PI.
  do 4 eexists. split; [reflexivity |].
  repeat split; unfold on_circle; cbn [fst snd];
    do 2 eexists;
    (split; [value_of; lra | split; [value_of; lra | apply circle_point]]).
Qed.

(** X17: for a finite non-zero tooth count and a finite module every
    vertex of the outline lies on the root circle, of diameter
    [teeth * module - 2.5 * module], or on the outer circle, of diameter
    [teeth * module + 2 * module]. *)
Theorem outline_on_two_circles (teeth modulus : number) (r m : R)
    (n : nat) :
  has_value teeth r -> r <> 0 -> has_value modulus m ->
  Forall (fun p => on_circle ((r * m - 2.5 * m) / 2) p
                   \/ on_circle ((r * m + 2 * m) / 2) p)
         (outline teeth modulus n).
Proof.
  intros Hr Hr0 Hm. unfold outline.
  apply Forall_flat_map. apply Forall_forall. intros j _.
  destruct (toothVertices_on_circles teeth modulus (Fin (INR j)) r m (INR j)
              Hr Hr0 Hm (has_value_Fin _))
    as (v1 & v2 & v3 & v4 & -> & H1 & H2 & H3 & H4).
  constructor; [now left |]. constructor; [now right |].
  constructor; [now right |]. constructor; [now left |]. constructor.
Qed.

Lemma outline_on_two_circles_pinion :
  has_value (Fin 18) 18 /\ 18 <> 0 /\ has_value (Fin 1.25) 1.25
  /\ Forall (fun p => on_circle ((18 * 1.25 - 2.5 * 1.25) / 2) p
                      \/ on_circle ((18 * 1.25 + 2 * 1.25) / 2) p)
        (outline (Fin 18) (Fin 1.25) 18).
Proof.
  assert (H : 18 <> 0) by lra.
  split; [reflexivity |]. split; [exact H |]. split; [reflexivity |].
  exact (outline_on_two_circles (Fin 18) (Fin 1.25) 18 1.25 18
           eq_refl H eq_refl).
Defined.

(** X18: for a whole number [n >= 1] of teeth and a finite module the
    outline starts on the root circle at angle zero and, after [n] teeth,
    ends at the very same point: the path is closed without a gap. *)
Theorem outline_closes (modulus : number) (m : R) (n : nat)
    (d : number * number) :
  (0 < n)%nat -> has_value modulus m ->
  let rRoot := (INR n * m - 2.5 * m) / 2 in
  at_point rRoot 0 (hd d (outline (Fin (INR n)) modulus n))
  /\ at_point rRoot 0 (last (outline (Fin (INR n)) modulus n) d).
Proof.
  intros Hn Hm rRoot.
  assert (Hr : INR n <> 0) by (apply not_0_INR; lia).
  assert (Ht : has_value (Fin (INR n)) (INR n)) by apply has_value_Fin.
  destruct n as [| n']; [lia |].
  split.
  - unfold outline. cbn [seq flat_map]. unfold toothVertices at 1, PI.
    cbn [app hd]. unfold at_point; cbn [fst snd].
    assert (E : INR 0 * (2 * Rtrigo1.PI) / INR (S n') = 0).
    { change (INR 0) with 0. unfold Rdiv. ring. }
    split;
      (eapply has_value_eq; [value_of; first [exact Hr | lra] |]);
      rewrite E.
    + rewrite cos_0. unfold rRoot. ring.
    + rewrite sin_0. ring.
  - unfold outline. rewrite seq_S, flat_map_app. cbn [flat_map Nat.add].
    rewrite app_nil_r. unfold toothVertices at 2, PI.
    match goal with
    | |- context [last (?l ++ [?a; ?b; ?c; ?e]) d] =>
        change (l ++ [a; b; c; e]) with (l ++ ([a; b; c] ++ [e]));
        rewrite app_assoc, last_last
    end.
    unfold at_point; cbn [fst snd].
    assert (E : (INR n' + 1) * (2 * Rtrigo1.PI) / INR (S n')
                = 2 * Rtrigo1.PI).
    { rewrite S_INR. field. rewrite <- S_INR. exact Hr. }
    split;
      (eapply has_value_eq; [value_of; first [exact Hr | lra] |]);
      rewrite E.
    + rewrite cos_2PI. unfold rRoot. ring.
    + rewrite sin_2PI. ring.
Qed.

Lemma outline_closes_pinion :
  (0 < 18)%nat /\ has_value (Fin 1.25) 1.25
  /\ at_point ((INR 18 * 1.25 - 2.5 * 1.25) / 2) 0
       (hd (NaN, NaN) (outline (Fin (INR 18)) (Fin 1.25) 18)).
Proof.
  assert (H : (0 < 18)%nat) by lia.
  split; [exact H |]. split; [reflexivity |].
  exact (proj1 (outline_closes (Fin 1.25) 1.25 18 (NaN, NaN) H eq_refl)).
Defined.

End GearPathFacts.

(* ================================================================== *)
(** ** The DXF export *)
(* ================================================================== *)

Module DxfExporterFacts.
Import Stdlib.Strings.String Stdlib.Strings.Ascii.
Import GearPath DxfExporter.

Lemma pointsLoop_runs (gear : GearParams) (r : R) :
  has_value (teeth gear) r ->
  forall (n k fuel : nat) (points : list (number * number)),
    (k + n = Nat.max k (iterations r))%nat -> (n < fuel)%nat ->
    pointsLoop fuel gear (Fin (INR k)) points
    = Some (points
            ++ flat_map (fun j => toothPoints gear (Fin (INR j)))
                 (seq k n)).
Proof.
  intros Hv. induction n as [| n IH]; intros k fuel points Hk Hf;
    (destruct fuel as [| fuel]; [lia |]); cbn [pointsLoop];
    rewrite (GearPathFacts.loop_condition (teeth gear) r k Hv).
  - assert (E : (k <? iterations r)%nat = false)
      by (apply Nat.ltb_ge; lia).
    rewrite E. cbn. now rewrite app_nil_r.
  - assert (E : (k <? iterations r)%nat = true)
      by (apply Nat.ltb_lt; lia).
    rewrite E, add_Fin, <- S_INR.
    rewrite IH by lia.
    cbn [seq flat_map]. now rewrite app_assoc.
Qed.

Lemma polygon_length (gear : GearParams) (n : nat) :
  List.length (polygon gear n) = (4 * n)%nat.
Proof.
  unfold polygon.
  assert (H : forall k,
             List.length
               (flat_map (fun j => toothPoints gear (Fin (INR j)))
                  (seq k n))
             = (4 * n)%nat).
  { induction n as [| n IH]; intros k; [reflexivity |].
    cbn [seq flat_map]. rewrite List.length_app, IH. cbn. lia. }
  apply H.
Qed.

Lemma iterations_positive (r : R) : 0 < r -> (0 < iterations r)%nat.
Proof.
  intros Hr. pose proof (ceil_Z_bounds r) as [_ Hu]. unfold iterations.
  assert (Hz : IZR 0 < IZR (Math.ceil_Z r)) by lra.
  apply lt_IZR in Hz. lia.
Qed.

(** X19: for a positive finite tooth count the export stops after one
    pass per tooth and returns a document: the header, the polyline, four
    vertices per tooth, the first vertex once more to close the loop, and
    the end of the section. *)
Theorem dxf_of_positive_teeth (toFixed : number -> nat -> string)
    (gear : GearParams) (r : R) (fuel : nat) :
  has_value (teeth gear) r -> 0 < r -> (iterations r < fuel)%nat ->
  exists (first : number * number) (rest : list (number * number)),
    polygon gear (iterations r) = first :: rest
    /\ List.length (polygon gear (iterations r)) = (4 * iterations r)%nat
    /\ generateGearDXF toFixed fuel gear
       = Some (Normal
                 ((fold_left (emitVertex toFixed)
                     (polygon gear (iterations r) ++ [first])
                     (header ++ polyline)
                   ++ seqend) ++ trailer)%string).
Proof.
  intros Hv Hr Hf.
  pose proof (iterations_positive r Hr) as Hn.
  pose proof (polygon_length gear (iterations r)) as Hl.
  destruct (polygon gear (iterations r)) as [| first rest] eqn:Ep.
  { cbn in Hl. lia. }
  exists first, rest. split; [reflexivity |]. split; [exact Hl |].
  unfold generateGearDXF.
  change (Fin 0) with (Fin (INR 0)).
  rewrite (pointsLoop_runs gear r Hv (iterations r) 0 fuel) by lia.
  rewrite app_nil_l. fold (polygon gear (iterations r)). rewrite Ep.
  now rewrite fold_left_app.
Qed.

Lemma dxf_of_positive_teeth_pinion :
  has_value (teeth (pinion Scenario.design)) 18 /\ 0 < 18
  /\ (iterations 18 < 19)%nat
  /\ List.length (polygon (pinion Scenario.design) (iterations 18))
     = (4 * iterations 18)%nat.
Proof.
  assert (H1 : has_value (teeth (pinion Scenario.design)) 18)
    by reflexivity.
  assert (H2 : 0 < 18) by lra.
  assert (H3 : (iterations 18 < 19)%nat)
    by (rewrite GearPathFacts.iterations_18; lia).
  repeat split; try assumption.
  destruct (dxf_of_positive_teeth (fun _ _ => "0"%string)
              (pinion Scenario.design) 18 19 H1 H2 H3)
    as (first & rest & _ & Hl & _).
  exact Hl.
Defined.




Lemma circle_point_origin (radius a : R) :
  Rsqr (radius * cos a) + Rsqr (radius * sin a) = Rsqr radius.
Proof.
  pose proof (sin2_cos2 a) as H. unfold Rsqr in *. nra.
Qed.

Lemma toothPoints_on_circles (gear : GearParams) (t : number) (r m k : R) :
  has_value (teeth gear) r -> r <> 0 ->
  has_value (module gear) m -> m <> 0 -> has_value t k ->
  exists v1 v2 v3 v4 : number * number,
    toothPoints gear t = [v1; v2; v3; v4]
    /\ on_circle ((r * m - 2.5 * m) / 2) v1
    /\ on_circle ((r * m + 2 * m) / 2) v2
    /\ on_circle ((r * m + 2 * m) / 2) v3
    /\ on_circle ((r * m - 2.5 * m) / 2) v4.
Proof.
  intros Hr Hr0 Hm Hm0 Hk. unfold toothPoints, PI.
  assert (Hp : r * m / 2 <> 0).
  { unfold Rdiv. apply Rmult_integral_contrapositive. split; [| lra].
    now apply Rmult_integral_contrapositive. }
  do 4 eexists. split; [reflexivity |].
  repeat split; unfold on_circle; cbn [fst snd];
    do 2 eexists;
    (split; [value_of; first [exact Hr0 | exact Hp | lra]
            | split; [value_of; first [exact Hr0 | exact Hp | lra]
                     | apply circle_point_origin]]).
Qed.

(** X21: for a finite non-zero tooth count and a finite non-zero module
    every point of the DXF polyline lies on the root circle or on the
    outer circle, the same two circles as the vertices of the SVG
    outline. *)
Theorem polygon_on_two_circles (gear : GearParams) (r m : R) (n : nat) :
  has_value (teeth gear) r -> r <> 0 ->
  has_value (module gear) m -> m <> 0 ->
  Forall (fun p => on_circle ((r * m - 2.5 * m) / 2) p
                   \/ on_circle ((r * m + 2 * m) / 2) p)
         (polygon gear n).
Proof.
  intros Hr Hr0 Hm Hm0. unfold polygon.
  apply Forall_flat_map. apply Forall_forall. intros j _.
  destruct (toothPoints_on_circles gear (Fin (INR j)) r m (INR j)
              Hr Hr0 Hm Hm0 (has_value_Fin _))
    as (v1 & v2 & v3 & v4 & -> & H1 & H2 & H3 & H4).
  constructor; [now left |]. constructor; [now right |].
  constructor; [now right |]. constructor; [now left |]. constructor.
Qed.

Lemma polygon_on_two_circles_pinion :
  has_value (teeth (pinion Scenario.design)) 18 /\ 18 <> 0
  /\ has_value (module (pinion Scenario.design)) 1.25 /\ 1.25 <> 0
  /\ Forall (fun p => on_circle ((18 * 1.25 - 2.5 * 1.25) / 2) p
                      \/ on_circle ((18 * 1.25 + 2 * 1.25) / 2) p)
        (polygon (pinion Scenario.design) 18).
Proof.
  assert (H1 : has_value (teeth (pinion Scenario.design)) 18)
    by reflexivity.
  assert (H2 : 18 <> 0) by lra.
  assert (H3 : has_value (module (pinion Scenario.design)) 1.25).
  { now rewrite ScenarioStep.pinion_design. }
  assert (H4 : 1.25 <> 0) by lra.
  repeat split; try assumption.
  exact (polygon_on_two_circles (pinion Scenario.design) 18 1.25 18
           H1 H2 H3 H4).
Defined.

End DxfExporterFacts.

(* ================================================================== *)
(** ** Power and torque entry *)
(* ================================================================== *)

Module InputPanelFacts.
Import InputPanel.

(** Rounding to two decimals keeps a finite number finite, and moves it
    by at most half a hundredth below [1e21]. *)
Lemma parseFloat_toFixed2_value (x : number) (v : R) :
  has_value x v ->
  exists w : R,
    has_value (parseFloat_toFixed2 x) w
    /\ (Rabs v < 1e21 -> Rabs (w - v) <= 0.005).
Proof.
  intros Hv. destruct x as [| s | | r]; try discriminate.
  - unfold has_value in Hv; simpl in Hv; injection Hv as <-.
    exists 0. split; [reflexivity |]. intros _.
    replace (0 - 0) with 0 by ring. rewrite Rabs_R0. lra.
  - unfold has_value in Hv; simpl in Hv; injection Hv as <-.
    unfold parseFloat_toFixed2.
    destruct (Rle_dec 1e21 (Rabs r)) as [Hbig | Hsmall].
    + exists r. split; [reflexivity |]. intros H. lra.
    + pose proof (floor_Z_bounds (Rabs r * 100 + / 2)) as [Hl Hu].
      set (n := IZR (Math.floor_Z (Rabs r * 100 + / 2))) in *.
      eexists. split; [apply finite_value |]. intros _.
      destruct (Rlt_dec r 0) as [Hneg | Hpos].
      * rewrite (Rabs_left r Hneg) in Hl, Hu. apply Rabs_le. lra.
      * rewrite (Rabs_right r) in Hl, Hu by lra. apply Rabs_le. lra.
Qed.

(** Dividing by [rpm || 1] never divides by zero or by [NaN]. *)
Lemma guarded_division (x rpm : number) (a : R) :
  has_value x a ->
  exists q : R,
    has_value (x / or_number rpm (Fin 1))%js q
    /\ (forall t : R, rpm = Fin t -> t <> 0 -> q = a / t)
    /\ (Number.truthy rpm = false -> q = a / 1).
Proof.
  intros Hx. unfold or_number.
  destruct rpm as [| s | | t]; cbn [Number.truthy].
  - exists (a / 1). split; [| split; [discriminate | reflexivity]].
    apply has_value_div; [exact Hx | apply has_value_Fin | lra].
  - exists 0. split; [| split; discriminate].
    destruct x as [| sx | | r]; try discriminate; unfold Number.div;
      now destruct (xorb _ _).
  - exists (a / 1). split; [| split; [discriminate | reflexivity]].
    apply has_value_div; [exact Hx | apply has_value_Fin | lra].
  - destruct (Req_dec_T t 0) as [E | N].
    + exists (a / 1). split; [| split; [| reflexivity]].
      * apply has_value_div; [exact Hx | apply has_value_Fin | lra].
      * intros t' [= <-] Ht'. contradiction.
    + exists (a / t). split; [| split; [| discriminate]].
      * apply has_value_div; [exact Hx | apply has_value_Fin | exact N].
      * now intros t' [= <-] _.
Qed.

(** X22: entering a finite power always yields a finite target torque,
    whatever the target output speed is (zero and [NaN] included: the
    division falls back on a divisor of 1), and leaves the other
    requirements alone.  For a finite non-zero speed [t] the torque is
    [9550 * kW / t] rounded to two decimals. *)
Theorem power_entry_gives_finite_torque (req : DesignRequirements)
    (unit : PowerUnit) (val : number) (v : R) :
  has_value val v ->
  let kW := match unit with hp => v * 0.7457 | kw => v end in
  let req' := handleOutputPowerChange req unit val in
  exists T : R,
    has_value (targetOutputTorque req') T
    /\ targetOutputRPM req' = targetOutputRPM req
    /\ nominalInputRPM req' = nominalInputRPM req
    /\ materialYieldStrength req' = materialYieldStrength req
    /\ inputVariability req' = inputVariability req
    /\ (forall t : R,
          targetOutputRPM req = Fin t -> t <> 0 ->
          Rabs (9550 * kW / t) < 1e21 ->
          Rabs (T - 9550 * kW / t) <= 0.005).
Proof.
  intros Hv kW req'. subst req'. unfold handleOutputPowerChange.
  cbn [withTargetOutputTorque targetOutputTorque targetOutputRPM
       nominalInputRPM materialYieldStrength inputVariability].
  assert (Hk : has_value
                 (Fin 9550 * match unit with
                             | kw => val
                             | hp => (val * Fin 0.7457)%js
                             end)%js (9550 * kW)).
  { apply has_value_mul; [apply has_value_Fin |].
    subst kW. destruct unit; [exact Hv |].
    apply has_value_mul; [exact Hv | apply has_value_Fin]. }
  destruct (guarded_division _ (targetOutputRPM req) _ Hk)
    as (q & Hq & Hqt & _).
  destruct (parseFloat_toFixed2_value _ q Hq) as (T & HT & Hb).
  exists T. repeat split; try assumption.
  intros t Et Ht Hsmall. rewrite <- (Hqt t Et Ht) in *. now apply Hb.
Qed.

Lemma power_entry_gives_finite_torque_stalled :
  has_value (Fin 2) 2
  /\ exists T : R,
       has_value
         (targetOutputTorque (handleOutputPowerChange Edge.stalled kw (Fin 2)))
         T.
Proof.
  split; [reflexivity |].
  destruct (power_entry_gives_finite_torque Edge.stalled kw (Fin 2) 2
              eq_refl) as (T & HT & _).
  now exists T.
Defined.

(** X23: after a power in kW is entered at a finite non-zero target
    speed [t], the power shown for the new requirements is within
    [0.005 * (1 + |t| / 9550)] of what was entered: the entry is
    reproduced up to the two roundings to hundredths. *)
Theorem power_entry_round_trip (req : DesignRequirements) (val : number)
    (v t : R) :
  has_value val v -> targetOutputRPM req = Fin t -> t <> 0 ->
  Rabs (9550 * v / t) < 1e21 ->
  Rabs v + 0.005 * Rabs t / 9550 < 1e21 ->
  exists shown : R,
    has_value (outputPowerShown (handleOutputPowerChange req kw val) kw)
      shown
    /\ Rabs (shown - v) <= 0.005 * (1 + Rabs t / 9550).
Proof.
  intros Hv Et Ht H1 H2.
  unfold outputPowerShown, handleOutputPowerChange.
  cbn [withTargetOutputTorque targetOutputTorque targetOutputRPM].
  assert (Hk : has_value (Fin 9550 * val)%js (9550 * v)).
  { apply has_value_mul; [apply has_value_Fin | exact Hv]. }
  destruct (guarded_division _ (targetOutputRPM req) _ Hk)
    as (q & Hq & Hqt & _).
  rewrite (Hqt t Et Ht) in Hq.
  destruct (parseFloat_toFixed2_value _ _ Hq) as (T & HT & Hb).
  specialize (Hb H1).
  assert (Hkw : has_value
            (parseFloat_toFixed2
               (Fin 9550 * val / or_number (targetOutputRPM req) (Fin 1))
             * targetOutputRPM req / Fin 9550)%js (T * t / 9550)).
  { apply has_value_div; [| apply has_value_Fin | lra].
    apply has_value_mul; [exact HT |]. rewrite Et. apply has_value_Fin. }
  assert (Hd : Rabs (T * t / 9550 - v) <= 0.005 * Rabs t / 9550).
  { replace (T * t / 9550 - v) with ((T - 9550 * v / t) * (t / 9550))
      by (field; exact Ht).
    rewrite Rabs_mult.
    replace (0.005 * Rabs t / 9550) with (0.005 * (Rabs t / 9550))
      by (unfold Rdiv; ring).
    assert (E : Rabs (t / 9550) = Rabs t / 9550).
    { unfold Rdiv. rewrite Rabs_mult. f_equal. apply Rabs_right.
      lra. }
    rewrite E.
    apply Rmult_le_compat_r; [| exact Hb].
    apply Rmult_le_pos; [apply Rabs_pos | lra]. }
  destruct (parseFloat_toFixed2_value _ _ Hkw) as (shown & Hs & Hbs).
  exists shown. split; [exact Hs |].
  assert (Hsmall : Rabs (T * t / 9550) < 1e21).
  { replace (T * t / 9550) with ((T * t / 9550 - v) + v) by ring.
    eapply Rle_lt_trans; [apply Rabs_triang |]. lra. }
  specialize (Hbs Hsmall).
  replace (shown - v) with ((shown - T * t / 9550) + (T * t / 9550 - v))
    by ring.
  eapply Rle_trans; [apply Rabs_triang |]. lra.
Qed.

Lemma power_entry_round_trip_scenario :
  has_value (Fin 0.63) 0.63 /\ targetOutputRPM Scenario.req = Fin 120
  /\ 120 <> 0
  /\ exists shown : R,
       has_value
         (outputPowerShown
            (handleOutputPowerChange Scenario.req kw (Fin 0.63)) kw) shown
       /\ Rabs (shown - 0.63) <= 0.005 * (1 + Rabs 120 / 9550).
Proof.
  assert (H0 : 120 <> 0) by lra.
  assert (H1 : Rabs (9550 * 0.63 / 120) < 1e21).
  { rewrite Rabs_right; lra. }
  assert (H2 : Rabs 0.63 + 0.005 * Rabs 120 / 9550 < 1e21).
  { rewrite !Rabs_right; lra. }
  split; [reflexivity |]. split; [reflexivity |]. split; [exact H0 |].
  exact (power_entry_round_trip Scenario.req (Fin 0.63) 0.63 120
           eq_refl eq_refl H0 H1 H2).
Defined.

(** X24: a source torque entered at finite speeds (output speed not zero)
    is turned into the output torque that carries the same power,
    [torque * nominalInputRPM / targetOutputRPM], up to the rounding to
    two decimals. *)
Theorem source_torque_conserves_power (req : DesignRequirements)
    (unit : PowerUnit) (val : number) (v n t : R) :
  has_value val v -> nominalInputRPM req = Fin n ->
  targetOutputRPM req = Fin t -> t <> 0 ->
  Rabs (v * n / t) < 1e21 ->
  exists T : R,
    has_value
      (targetOutputTorque (handleSourceValChange req torqueMode unit val)) T
    /\ Rabs (T - v * n / t) <= 0.005
    /\ Rabs (T * t - v * n) <= 0.005 * Rabs t.
Proof.
  intros Hv En Et Ht Hsmall. unfold handleSourceValChange.
  cbn [withTargetOutputTorque targetOutputTorque].
  assert (Hk : has_value (val * nominalInputRPM req / Fin 9550 * Fin 9550)%js
                 (v * n / 9550 * 9550)).
  { apply has_value_mul; [| apply has_value_Fin].
    apply has_value_div; [| apply has_value_Fin | lra].
    apply has_value_mul; [exact Hv |]. rewrite En. apply has_value_Fin. }
  destruct (guarded_division _ (targetOutputRPM req) _ Hk)
    as (q & Hq & Hqt & _).
  rewrite (Hqt t Et Ht) in Hq.
  assert (E : v * n / 9550 * 9550 / t = v * n / t) by (field; exact Ht).
  rewrite E in Hq.
  destruct (parseFloat_toFixed2_value _ _ Hq) as (T & HT & Hb).
  specialize (Hb Hsmall).
  exists T. split; [exact HT |]. split; [exact Hb |].
  replace (T * t - v * n) with ((T - v * n / t) * t) by (field; exact Ht).
  rewrite Rabs_mult. apply Rmult_le_compat_r; [apply Rabs_pos | exact Hb].
Qed.

Lemma source_torque_conserves_power_scenario :
  has_value (Fin 5) 5 /\ nominalInputRPM Scenario.req = Fin 1200
  /\ targetOutputRPM Scenario.req = Fin 120 /\ 120 <> 0
  /\ exists T : R,
       has_value
         (targetOutputTorque
            (handleSourceValChange Scenario.req torqueMode kw (Fin 5))) T
       /\ Rabs (T - 5 * 1200 / 120) <= 0.005.
Proof.
  assert (H0 : 120 <> 0) by lra.
  assert (H1 : Rabs (5 * 1200 / 120) < 1e21).
  { rewrite Rabs_right; lra. }
  split; [reflexivity |]. split; [reflexivity |].
  split; [reflexivity |]. split; [exact H0 |].
  destruct (source_torque_conserves_power Scenario.req kw (Fin 5) 5 1200 120
              eq_refl eq_refl eq_refl H0 H1) as (T & HT & Hb & _).
  exists T. now split.
Defined.

End InputPanelFacts.
